(** * Strawberry collection filter and collection query

    A shallow embedding of [src/collection/collectionfilter.cpp] and
    [src/collection/collectionquery.cpp], and the properties of the
    filter language, the tree filter and the SQL builder proved on it. *)

From Stdlib Require Import ZArith NArith String Ascii List Bool Lia.
From Stdlib Require Import DecimalString SpecFloat.
From stdpp Require Import gmap strings.

Import ListNotations.
Open Scope string_scope.
Open Scope Z_scope.

#[local] Arguments String.append !s1 s2 : simpl nomatch.
#[local] Set Default Proof Using "Type".

(** ** QString

    A [QString] is modelled by a [string] whose characters are the code
    points 0..255 (the Latin-1 block); the functions below follow the Qt
    functions of the same name on that range. *)

Module QStr.

Definition QString := string.

Definition code (c : ascii) : N := N_of_ascii c.

(** [QChar::isSpace]: U+0020, U+0009..U+000D, U+0085 and U+00A0. *)
Definition isSpace (c : ascii) : bool :=
  let n := code c in
  ((n =? 32) || ((9 <=? n) && (n <=? 13)) || (n =? 133) || (n =? 160))%N.

(** The class [\s] of [QRegularExpression] (no Unicode properties):
    space, HT, LF, VT, FF and CR. *)
Definition regex_space (c : ascii) : bool :=
  let n := code c in
  ((n =? 32) || ((9 <=? n) && (n <=? 13)))%N.

(** [QChar::toLower] / case folding on the Latin-1 block. *)
Definition toLower_char (c : ascii) : ascii :=
  let n := code c in
  if (((65 <=? n) && (n <=? 90))
      || ((192 <=? n) && (n <=? 222) && negb (n =? 215)))%N
  then ascii_of_N (n + 32) else c.

Fixpoint toLower (s : QString) : QString :=
  match s with
  | EmptyString => EmptyString
  | String c s' => String (toLower_char c) (toLower s')
  end.

Definition isEmpty (s : QString) : bool :=
  match s with EmptyString => true | String _ _ => false end.

(** [QString::contains(QChar)]. *)
Fixpoint contains_char (ch : ascii) (s : QString) : bool :=
  match s with
  | EmptyString => false
  | String c s' => Ascii.eqb c ch || contains_char ch s'
  end.

(** [QString::remove(QChar)]: every occurrence is removed. *)
Fixpoint remove (ch : ascii) (s : QString) : QString :=
  match s with
  | EmptyString => EmptyString
  | String c s' => if Ascii.eqb c ch then remove ch s' else String c (remove ch s')
  end.

(** [QString::count(QChar)]. *)
Fixpoint count (ch : ascii) (s : QString) : nat :=
  match s with
  | EmptyString => O
  | String c s' => ((if Ascii.eqb c ch then 1 else 0) + count ch s')%nat
  end.

Fixpoint ltrim (s : QString) : QString :=
  match s with
  | EmptyString => EmptyString
  | String c s' => if isSpace c then ltrim s' else s
  end.

Fixpoint rtrim (s : QString) : QString :=
  match s with
  | EmptyString => EmptyString
  | String c s' =>
      let r := rtrim s' in
      if isSpace c && isEmpty r then EmptyString else String c r
  end.

(** [QString::trimmed]. *)
Definition trimmed (s : QString) : QString := rtrim (ltrim s).

(** [QString::contains(QString, Qt::CaseSensitive)]: the empty string is
    contained in every string. *)
Fixpoint contains (needle hay : QString) : bool :=
  String.prefix needle hay ||
  match hay with
  | EmptyString => false
  | String _ hay' => contains needle hay'
  end.

(** [hay.contains(needle, Qt::CaseInsensitive)]. *)
Definition contains_ci (hay needle : QString) : bool :=
  contains (toLower needle) (toLower hay).

(** [a.compare(b, Qt::CaseInsensitive) == 0]. *)
Definition equal_ci (a b : QString) : bool :=
  String.eqb (toLower a) (toLower b).

(** [QStringList::contains(str, Qt::CaseInsensitive)]. *)
Definition list_contains_ci (l : list QString) (str : QString) : bool :=
  existsb (fun k => equal_ci k str) l.

(** [QString::split(QChar, Qt::KeepEmptyParts)]: never the empty list. *)
Fixpoint split_char (sep : ascii) (s : QString) : list QString :=
  match s with
  | EmptyString => [EmptyString]
  | String c s' =>
      let r := split_char sep s' in
      if Ascii.eqb c sep then EmptyString :: r
      else match r with
           | h :: t => String c h :: t
           | [] => [String c EmptyString]
           end
  end.

(** [QString::section(sep, start, end)] with the default flags: the fields
    [start..end] of the split, joined by [sep]; a negative position counts
    from the last field. *)
Definition section (sep : ascii) (start end_ : Z) (s : QString) : QString :=
  let sections := split_char sep s in
  let n := Z.of_nat (List.length sections) in
  let start := if start <? 0 then start + n else start in
  let end_ := if end_ <? 0 then end_ + n else end_ in
  if (n <=? start) || (end_ <? 0) || (end_ <? start) then EmptyString
  else
    let first := Z.to_nat start in
    String.concat (String sep EmptyString)
      (firstn (Z.to_nat (end_ + 1) - first) (skipn first sections)).

(** [QString::split(QRegularExpression("\\s+"), Qt::SkipEmptyParts)]: the
    maximal runs of characters outside [\s]. *)
Fixpoint split_ws (s : QString) : list QString :=
  match s with
  | EmptyString => []
  | String c s' =>
      let r := split_ws s' in
      if regex_space c then r
      else match s' with
           | EmptyString => [String c EmptyString]
           | String c' _ =>
               if regex_space c' then String c EmptyString :: r
               else match r with
                    | h :: t => String c h :: t
                    | [] => [String c EmptyString]
                    end
           end
  end.

(** [QString::number] of an integer: decimal digits with a leading minus
    sign for a negative number. *)
Definition number (z : Z) : QString := NilZero.string_of_int (Z.to_int z).

(** [QString::replace(before, after)] for a non-empty [before]: the
    occurrences are found left to right and do not overlap.  [skip] counts
    the characters of the current occurrence that remain to be dropped. *)
Fixpoint replace_from (skip : nat) (before after s : QString) : QString :=
  match s with
  | EmptyString => EmptyString
  | String c s' =>
      match skip with
      | S k => replace_from k before after s'
      | O =>
          if String.prefix before s
          then after ++ replace_from (String.length before - 1) before after s'
          else String c (replace_from O before after s')
      end
  end.

Definition replace (before after s : QString) : QString :=
  replace_from O before after s.

End QStr.

Import QStr.

(** ** The collection tree

    Of [collectionitem.h], [collectionmodel.h] and [song.h] the records
    below hold the members and accessors that the filter reads. *)

(** The accessors of [Song] read by the filter. *)
Record Song := mkSong {
  is_valid : bool;
  artist : QString;
  effective_albumartist : QString;
  album : QString;
  title : QString
}.

Inductive ItemType :=
| Type_Root | Type_Divider | Type_Container | Type_Song | Type_LoadingIndicator.

Definition ItemType_eqb (a b : ItemType) : bool :=
  match a, b with
  | Type_Root, Type_Root | Type_Divider, Type_Divider
  | Type_Container, Type_Container | Type_Song, Type_Song
  | Type_LoadingIndicator, Type_LoadingIndicator => true
  | _, _ => false
  end.

(** A [CollectionItem] as the filter sees it through a pointer: the item's
    own members, the chain of [parent] pointers above it and the subtrees
    of its [children] below it. *)
#[warnings="-register-all"]
Inductive CollectionItem := mkItem {
  type : ItemType;
  display_text : QString;
  metadata : Song;
  container_level : Z;
  parent : option CollectionItem;
  children : list CollectionItem
}.

Definition DisplayText (item : CollectionItem) : QString := display_text item.

(** [CollectionModel::GroupBy], the cases of the switch in [TagMatches]. *)
Inductive GroupBy :=
| GroupBy_AlbumArtist | GroupBy_Artist | GroupBy_Album | GroupBy_AlbumDisc
| GroupBy_YearAlbum | GroupBy_YearAlbumDisc | GroupBy_OriginalYearAlbum
| GroupBy_OriginalYearAlbumDisc | GroupBy_Disc | GroupBy_Year
| GroupBy_OriginalYear | GroupBy_Genre | GroupBy_Composer | GroupBy_Performer
| GroupBy_Grouping | GroupBy_FileType | GroupBy_Format | GroupBy_Bitdepth
| GroupBy_Samplerate | GroupBy_Bitrate | GroupBy_None | GroupBy_GroupByCount.

(** [CollectionModel::Grouping]: one key per container level. *)
Record Grouping := mkGrouping {
  first : GroupBy;
  second : GroupBy;
  third : GroupBy
}.

(** [Grouping::operator[]], used by the filter at the levels 0..2 only. *)
Definition Grouping_at (g : Grouping) (i : Z) : GroupBy :=
  if i =? 0 then first g else if i =? 1 then second g
  else if i =? 2 then third g else first g.

Record QModelIndex := mkIndex {
  isValid : bool;
  row : Z;
  column : Z;
  internalId : N
}.

(** The members of [CollectionModel] called by the filter. *)
Record CollectionModel := mkModel {
  GetGroupBy : Grouping;
  index : Z -> Z -> QModelIndex -> QModelIndex;
  IndexToItem : QModelIndex -> option CollectionItem
}.

(** What [sourceModel()] points to: a [CollectionModel] or a model of
    another class. *)
Inductive QAbstractItemModel :=
| IsCollectionModel (m : CollectionModel)
| OtherModel (index_of : Z -> Z -> QModelIndex -> QModelIndex).

(** [qobject_cast<CollectionModel*>]: null for a null pointer and for an
    object of another class. *)
Definition qobject_cast (p : option QAbstractItemModel) : option CollectionModel :=
  match p with
  | Some (IsCollectionModel m) => Some m
  | _ => None
  end.

(** ** CollectionFilter *)

(** [QMap<QString, QString>]: at most one value per key, keys compared
    exactly. *)
Abbreviation Tags := (gmap string string).

Section CollectionFilter.

(** [Song::kColumns], declared in [song.h]. *)
Variable kColumns : list QString.

(** The append of a token to the free-text filter,
    [if (!filter.isEmpty()) filter.append(" "); filter += token;]. *)
Definition append_token (filter token : QString) : QString :=
  (if negb (isEmpty filter) then filter ++ " " else filter) ++ token.

(** The body of the loop over the tokens in [filterAcceptsRow]. *)
Definition parse_token (acc : QString * Tags) (token : QString) : QString * Tags :=
  let '(filter, tags) := acc in
  if contains_char ":" token then
    if list_contains_ci kColumns (section ":" 0 0 token) then
      let tag := trimmed (remove ":" (section ":" 0 0 token)) in
      let value := trimmed (remove ":" (section ":" 1 (-1) token)) in
      if negb (isEmpty tag) && negb (isEmpty value)
      then (filter, <[tag := value]> tags)
      else (filter, tags)
    else
      let token := trimmed (remove ":" token) in
      if negb (isEmpty token) then (append_token filter token, tags)
      else (filter, tags)
  else (append_token filter token, tags).

(** The parse of the filter text in [filterAcceptsRow]: the split into
    tokens, [filter.clear()], and the loop. *)
Definition Parse (filter : QString) : QString * Tags :=
  fold_left parse_token (split_ws filter) (EmptyString, ∅).

(** [TagMatches(item, tags)], the song overload.  The loop returns at the
    first pair that matches, so its result is that of [existsb] over the
    pairs, whatever their order. *)
Definition TagMatches_song (item : CollectionItem) (tags : Tags) : bool :=
  let metadata := metadata item in
  existsb (fun '(key, value) =>
    let tag := toLower key in
    (String.eqb tag "albumartist" && contains_ci (effective_albumartist metadata) value)
    || (String.eqb tag "artist" && contains_ci (artist metadata) value)
    || (String.eqb tag "album" && contains_ci (album metadata) value)
    || (String.eqb tag "title" && contains_ci (title metadata) value))
  (map_to_list tags).

(** The switch of [TagMatches(item, group_by, tags)]; the empty string is
    the default-constructed [QString tag]. *)
Definition group_by_tag (group_by : GroupBy) : QString :=
  match group_by with
  | GroupBy_AlbumArtist => "albumartist"
  | GroupBy_Artist => "artist"
  | GroupBy_Album | GroupBy_AlbumDisc | GroupBy_YearAlbum
  | GroupBy_YearAlbumDisc | GroupBy_OriginalYearAlbum
  | GroupBy_OriginalYearAlbumDisc => "album"
  | GroupBy_Disc | GroupBy_Year | GroupBy_OriginalYear => ""
  | GroupBy_Genre => "genre"
  | GroupBy_Composer => "composer"
  | GroupBy_Performer => "performer"
  | GroupBy_Grouping => "grouping"
  | GroupBy_FileType => "filetype"
  | GroupBy_Format | GroupBy_Bitdepth | GroupBy_Samplerate
  | GroupBy_Bitrate | GroupBy_None | GroupBy_GroupByCount => ""
  end.

(** [TagMatches(item, group_by, tags)], the container overload. *)
Definition TagMatches_container (item : CollectionItem) (group_by : GroupBy)
    (tags : Tags) : bool :=
  let tag := group_by_tag group_by in
  let value :=
    if negb (isEmpty tag) then
      match tags !! tag with Some v => v | None => EmptyString end
    else EmptyString in
  negb (isEmpty value) && contains_ci (DisplayText item) value.

Definition ItemMatches (model : CollectionModel) (item : CollectionItem)
    (tags : Tags) (filter : QString) : bool :=
  (isEmpty filter || contains_ci (DisplayText item) filter)
  &&
  (bool_decide (tags = ∅)
   || (is_valid (metadata item) && TagMatches_song item tags)
   || ((0 <=? container_level item) && (container_level item <=? 2)
       && TagMatches_container item
            (Grouping_at (GetGroupBy model) (container_level item)) tags)).

Fixpoint ChildrenMatches (model : CollectionModel) (item : CollectionItem)
    (tags : Tags) (filter : QString) {struct item} : bool :=
  ItemMatches model item tags filter
  || match item with
     | mkItem _ _ _ _ _ cs =>
         existsb (fun child => ChildrenMatches model child tags filter) cs
     end.

(** The loop [for (parent = item->parent; parent; parent = parent->parent)]
    of [filterAcceptsRow]. *)
Fixpoint ParentMatches (model : CollectionModel) (item : CollectionItem)
    (tags : Tags) (filter : QString) {struct item} : bool :=
  match item with
  | mkItem _ _ _ _ (Some p) _ =>
      ItemMatches model p tags filter || ParentMatches model p tags filter
  | mkItem _ _ _ _ None _ => false
  end.

(** The filter text taken from the proxy model's pattern: with Qt 6 the
    backslashes are removed. *)
Definition filter_of_pattern (qt6 : bool) (pattern : QString) : QString :=
  if qt6 then remove "\" pattern else pattern.

(** [filterAcceptsRow] from the test of the item's type on. *)
Definition filterAcceptsItem (model : CollectionModel) (item : CollectionItem)
    (qt6 : bool) (pattern : QString) : bool :=
  if ItemType_eqb (type item) Type_LoadingIndicator then true
  else
    let filter := filter_of_pattern qt6 pattern in
    if isEmpty filter then true
    else
      let '(filter, tags) := Parse filter in
      if ItemMatches model item tags filter then true
      else if ParentMatches model item tags filter then true
      else ChildrenMatches model item tags filter.

(** [CollectionFilter::filterAcceptsRow]. *)
Definition filterAcceptsRow (sourceModel : option QAbstractItemModel)
    (qt6 : bool) (pattern : QString)
    (source_row : Z) (source_parent : QModelIndex) : bool :=
  match qobject_cast sourceModel with
  | None => false
  | Some model =>
      let idx := index model source_row 0 source_parent in
      if negb (isValid idx) then false
      else match IndexToItem model idx with
           | None => false
           | Some item => filterAcceptsItem model item qt6 pattern
           end
  end.

End CollectionFilter.

(** ** CollectionQuery *)

(** A [float]: an IEEE 754 binary32 number, with the operations of
    [SpecFloat] at precision 24 and maximal exponent 128. *)
Module Float32.

Definition float := spec_float.
Definition prec : Z := 24.
Definition emax : Z := 128.

Definition add (x y : float) : float := SFadd prec emax x y.
Definition sub (x y : float) : float := SFsub prec emax x y.

(** The value [m * 2^e] of a finite float as the fraction [num / den]. *)
Definition num (f : float) : Z :=
  match f with
  | S754_finite s m e =>
      (if s then -1 else 1) * Z.pos m * (if 0 <=? e then 2 ^ e else 1)
  | _ => 0
  end.

Definition den (f : float) : Z :=
  match f with
  | S754_finite _ _ e => if 0 <=? e then 1 else 2 ^ (- e)
  | _ => 1
  end.

(** [f] is within [2^-k] of the decimal number [n / d], for [d > 0]. *)
Definition within (k : Z) (f : float) (n d : Z) : bool :=
  (Z.abs (num f * d - n * den f) * 2 ^ k <=? den f * d).

End Float32.

(** The [QVariant] values handed to the query. [QVariant_String None] is a
    variant of type [QString] that holds the null string. *)
Inductive QVariant :=
| QVariant_Invalid
| QVariant_Int (i : Z)
| QVariant_LongLong (i : Z)
| QVariant_Float (f : Float32.float)
| QVariant_String (s : option QString)
| QVariant_StringList (l : list QString).

(** [QVariant::toStringList]: the list of a string list, the one-element
    list of a string, the empty list for the other types. *)
Definition toStringList (value : QVariant) : list QString :=
  match value with
  | QVariant_StringList l => l
  | QVariant_String (Some s) => [s]
  | QVariant_String None => [EmptyString]
  | _ => []
  end.

(** [QString::arg(a1, a2, ...)]: the place markers [%1] .. [%9] of the
    format are replaced in one pass by the arguments; the text of an
    argument is not scanned again.  The formats of the query have
    one-digit markers only. *)
Definition marker (c : ascii) : option nat :=
  let n := code c in
  if ((49 <=? n) && (n <=? 57))%N then Some (N.to_nat (n - 49)) else None.

Fixpoint arg (format : QString) (args : list QString) : QString :=
  match format with
  | EmptyString => EmptyString
  | String c rest =>
      match rest with
      | String d rest' =>
          if Ascii.eqb c "%" then
            match marker d with
            | Some i =>
                match nth_error args i with
                | Some a => a ++ arg rest' args
                | None => String c (arg rest args)
                end
            | None => String c (arg rest args)
            end
          else String c (arg rest args)
      | EmptyString => String c EmptyString
      end
  end.

(** [CollectionFilterOptions], as the constructor reads it. *)
Inductive FilterMode := FilterMode_All | FilterMode_Duplicates | FilterMode_Untagged.

Record CollectionFilterOptions := mkOptions {
  max_age : Z;
  filter_mode : FilterMode
}.

(** The members of [CollectionQuery]. *)
Record CollectionQuery := mkQuery {
  songs_table_ : QString;
  column_spec_ : QString;
  order_by_ : QString;
  where_clauses_ : list QString;
  bound_values_ : list QVariant;
  include_unavailable_ : bool;
  duplicates_only_ : bool;
  limit_ : Z
}.

(** [where_clauses_ << clause]. *)
Definition push_where (clause : QString) (q : CollectionQuery) : CollectionQuery :=
  mkQuery (songs_table_ q) (column_spec_ q) (order_by_ q)
    (where_clauses_ q ++ [clause])%list (bound_values_ q)
    (include_unavailable_ q) (duplicates_only_ q) (limit_ q).

(** [bound_values_ << value]. *)
Definition push_bound (value : QVariant) (q : CollectionQuery) : CollectionQuery :=
  mkQuery (songs_table_ q) (column_spec_ q) (order_by_ q)
    (where_clauses_ q) (bound_values_ q ++ [value])%list
    (include_unavailable_ q) (duplicates_only_ q) (limit_ q).

Definition set_duplicates_only (b : bool) (q : CollectionQuery) : CollectionQuery :=
  mkQuery (songs_table_ q) (column_spec_ q) (order_by_ q)
    (where_clauses_ q) (bound_values_ q)
    (include_unavailable_ q) b (limit_ q).

(** [limit_ = limit], the assignment of the setter in [collectionquery.h]. *)
Definition SetLimit (limit : Z) (q : CollectionQuery) : CollectionQuery :=
  mkQuery (songs_table_ q) (column_spec_ q) (order_by_ q)
    (where_clauses_ q) (bound_values_ q)
    (include_unavailable_ q) (duplicates_only_ q) limit.

(** The constructor; [now] is
    [QDateTime::currentDateTime().toSecsSinceEpoch()]. *)
Definition CollectionQuery_new (now : Z) (songs_table : QString)
    (filter_options : CollectionFilterOptions) : CollectionQuery :=
  let q := mkQuery songs_table EmptyString EmptyString [] [] false false (-1) in
  let q :=
    if negb (max_age filter_options =? -1) then
      let cutoff := now - max_age filter_options in
      push_bound (QVariant_LongLong cutoff) (push_where "ctime > ?" q)
    else q in
  let q :=
    set_duplicates_only
      (match filter_mode filter_options with
       | FilterMode_Duplicates => true | _ => false end) q in
  match filter_mode filter_options with
  | FilterMode_Untagged =>
      push_where "(artist = '' OR album = '' OR title ='')" q
  | _ => q
  end.

Section CollectionQuery.

(** [Utilities::ParseSearchRating], defined in
    [utilities/searchparserutils.cpp]. *)
Variable ParseSearchRating : QString -> Float32.float.

(** [QString::number(float)], the text of a float variant. *)
Variable float_toString : Float32.float -> QString.

(** [QVariant::toString]. *)
Definition toString (value : QVariant) : QString :=
  match value with
  | QVariant_Invalid => EmptyString
  | QVariant_Int i => number i
  | QVariant_LongLong i => number i
  | QVariant_Float f => float_toString f
  | QVariant_String (Some s) => s
  | QVariant_String None => EmptyString
  | QVariant_StringList [s] => s
  | QVariant_StringList _ => EmptyString
  end.

(** The loop of [AddWhere] over the values of an IN list, on the pair of
    [final_values] and the query. *)
Definition AddWhere_in_step (acc : list QString * CollectionQuery)
    (single_value : QString) : list QString * CollectionQuery :=
  let '(final_values, q) := acc in
  ((final_values ++ ["?"])%list,
   push_bound (QVariant_String (Some single_value)) q).

Definition AddWhere (column : QString) (value : QVariant) (op : QString)
    (q : CollectionQuery) : CollectionQuery :=
  if equal_ci op "IN" then
    let values := toStringList value in
    let '(final_values, q) := fold_left AddWhere_in_step values ([], q) in
    push_where
      (arg ("%1 IN (" ++ String.concat "," final_values ++ ")") [column]) q
  else
    match value with
    | QVariant_Int _ =>
        push_where (arg "%1 %2 %3" [column; op; toString value]) q
    | QVariant_String None =>
        push_bound (QVariant_String (Some EmptyString))
          (push_where (arg "%1 %2 ?" [column; op]) q)
    | _ =>
        push_bound value (push_where (arg "%1 %2 ?" [column; op]) q)
    end.

Definition AddWhereArtist (value : QVariant) (q : CollectionQuery) : CollectionQuery :=
  push_bound value
    (push_bound value
       (push_where "((artist = ? AND albumartist = '') OR albumartist = ?)" q)).

(** [0.001F]: the binary32 number nearest to 1/1000. *)
Definition tolerance : Float32.float := S754_finite false 8589935 (-33).

Definition AddWhereRating (value : QVariant) (op : QString)
    (q : CollectionQuery) : CollectionQuery :=
  let parsed_rating := ParseSearchRating (toString value) in
  if String.eqb op "<" then
    AddWhere "rating" (QVariant_Float (Float32.sub parsed_rating tolerance)) "<" q
  else if String.eqb op ">" then
    AddWhere "rating" (QVariant_Float (Float32.add parsed_rating tolerance)) ">" q
  else if String.eqb op "<=" then
    AddWhere "rating" (QVariant_Float (Float32.add parsed_rating tolerance)) "<=" q
  else if String.eqb op ">=" then
    AddWhere "rating" (QVariant_Float (Float32.sub parsed_rating tolerance)) ">=" q
  else if String.eqb op "<>" then
    push_bound (QVariant_Float (Float32.add parsed_rating tolerance))
      (push_bound (QVariant_Float (Float32.sub parsed_rating tolerance))
         (push_where "(rating<? OR rating>?)" q))
  else
    AddWhere "rating" (QVariant_Float (Float32.sub parsed_rating tolerance)) ">"
      (AddWhere "rating" (QVariant_Float (Float32.add parsed_rating tolerance)) "<" q).

Definition AddCompilationRequirement (compilation : bool)
    (q : CollectionQuery) : CollectionQuery :=
  push_where
    (arg "+compilation_effective = %1" [number (if compilation then 1 else 0)]) q.

Definition GetInnerQuery (q : CollectionQuery) : QString :=
  if duplicates_only_ q then
    " INNER JOIN (select * from duplicated_songs) dsongs        "
    ++ "ON (%songs_table.artist = dsongs.dup_artist       "
    ++ "AND %songs_table.album = dsongs.dup_album     "
    ++ "AND %songs_table.title = dsongs.dup_title)    "
  else EmptyString.

(** The local [where_clauses] of [Exec]. *)
Definition Exec_where_clauses (q : CollectionQuery) : list QString :=
  if negb (include_unavailable_ q)
  then (where_clauses_ q ++ ["unavailable = 0"])%list
  else where_clauses_ q.

(** The text of [sql] in [Exec] before the ORDER BY test. *)
Definition Exec_sql_where (q : CollectionQuery) : QString :=
  let sql := arg "SELECT %1 FROM %2 %3"
               [column_spec_ q; songs_table_ q; GetInnerQuery q] in
  let where_clauses := Exec_where_clauses q in
  match where_clauses with
  | [] => sql
  | _ => sql ++ " WHERE " ++ String.concat " AND " where_clauses
  end.

(** The text of [sql] in [Exec] before the LIMIT test. *)
Definition Exec_sql_order (q : CollectionQuery) : QString :=
  let sql := Exec_sql_where q in
  if negb (isEmpty (order_by_ q)) then sql ++ " ORDER BY " ++ order_by_ q else sql.

(** The text of [sql] in [Exec] before the table name is substituted. *)
Definition Exec_sql_limit (q : CollectionQuery) : QString :=
  let sql := Exec_sql_order q in
  if negb (limit_ q =? -1) then sql ++ " LIMIT " ++ number (limit_ q) else sql.

(** The statement that [Exec] prepares. *)
Definition Exec_sql (q : CollectionQuery) : QString :=
  replace "%songs_table" (songs_table_ q) (Exec_sql_limit q).

(** The database behind [QSqlQuery]: whether a statement can be prepared,
    and the result of running it with the values bound in order. *)
Record QSqlQuery := mkSql {
  prepare : QString -> bool;
  exec : QString -> list QVariant -> bool
}.

Definition Exec (db : QSqlQuery) (q : CollectionQuery) : bool :=
  let sql := Exec_sql q in
  if negb (prepare db sql) then false
  else exec db sql (bound_values_ q).

(** The builder operations, and a run of a sequence of them. *)
Inductive Operation :=
| Op_AddWhere (column : QString) (value : QVariant) (op : QString)
| Op_AddWhereArtist (value : QVariant)
| Op_AddWhereRating (value : QVariant) (op : QString)
| Op_AddCompilationRequirement (compilation : bool).

Definition apply (q : CollectionQuery) (o : Operation) : CollectionQuery :=
  match o with
  | Op_AddWhere column value op => AddWhere column value op q
  | Op_AddWhereArtist value => AddWhereArtist value q
  | Op_AddWhereRating value op => AddWhereRating value op q
  | Op_AddCompilationRequirement compilation => AddCompilationRequirement compilation q
  end.

Definition run (ops : list Operation) (q : CollectionQuery) : CollectionQuery :=
  fold_left apply ops q.

End CollectionQuery.

(** The number of [?] in a list of clauses. *)
Definition placeholders (clauses : list QString) : nat :=
  list_sum (map (count "?") clauses).

(** The query with the clauses [cs] and the values [vs] appended to its
    two lists, the other members being the same. *)
Definition appended (cs : list QString) (vs : list QVariant)
    (q : CollectionQuery) : CollectionQuery :=
  mkQuery (songs_table_ q) (column_spec_ q) (order_by_ q)
    (where_clauses_ q ++ cs)%list (bound_values_ q ++ vs)%list
    (include_unavailable_ q) (duplicates_only_ q) (limit_ q).

(** An operation whose column and operator texts hold no [?]. *)
Definition Operation_wf (o : Operation) : Prop :=
  match o with
  | Op_AddWhere column _ op => count "?" column = O /\ count "?" op = O
  | _ => True
  end.

(** Every character of the string satisfies [P]. *)
Fixpoint all_chars (P : ascii -> bool) (s : QString) : bool :=
  match s with
  | EmptyString => true
  | String c s' => P c && all_chars P s'
  end.

(** The characters of a decimal number. *)
Definition decimal_char (c : ascii) : bool :=
  let n := code c in
  ((n =? 45) || ((48 <=? n) && (n <=? 57)))%N.

(** Modelled from the spec: [Song::kColumns], whose definition in
    [core/song.cpp] is not part of the sources, as the fixed set of song
    fields that the filter language recognizes as tags. *)
Definition kColumns_spec : list QString :=
  ["albumartist"; "artist"; "album"; "title"; "genre"; "composer";
   "performer"; "grouping"; "filetype"].

(** The items above an item, along the [parent] pointers. *)
Inductive ancestor_of : CollectionItem -> CollectionItem -> Prop :=
| ancestor_parent item p :
    parent item = Some p -> ancestor_of p item
| ancestor_up item p a :
    parent item = Some p -> ancestor_of a p -> ancestor_of a item.

(** The items below an item, along the [children] lists. *)
Inductive descendant_of : CollectionItem -> CollectionItem -> Prop :=
| descendant_child item c :
    In c (children item) -> descendant_of c item
| descendant_down item c d :
    In c (children item) -> descendant_of d c -> descendant_of d item.

(** ** A small collection

    An artist container, its album and a song, as the filter reaches them:
    every item carries its chain of parents; the children of the items of
    a parent chain are not read by the filter and are left out there. *)
Module Sample.

Definition no_song : Song :=
  mkSong false EmptyString EmptyString EmptyString EmptyString.

Definition one_more_time : Song :=
  mkSong true "Daft Punk" "Daft Punk" "Discovery" "One More Time".

Definition root_above : CollectionItem :=
  mkItem Type_Root EmptyString no_song (-1) None [].

Definition artist_above : CollectionItem :=
  mkItem Type_Container "Daft Punk" no_song 0 (Some root_above) [].

Definition album_above : CollectionItem :=
  mkItem Type_Container "Discovery" no_song 1 (Some artist_above) [].

Definition song_item : CollectionItem :=
  mkItem Type_Song "One More Time" one_more_time (-1) (Some album_above) [].

Definition album_item : CollectionItem :=
  mkItem Type_Container "Discovery" no_song 1 (Some artist_above) [song_item].

Definition artist_item : CollectionItem :=
  mkItem Type_Container "Daft Punk" no_song 0 (Some root_above) [album_item].

(** A model grouped by artist and album.  Row 0 is the artist, row 1 the
    song, row 2 an index without an item; the other rows have no index. *)
Definition model : CollectionModel :=
  mkModel
    (mkGrouping GroupBy_Artist GroupBy_Album GroupBy_None)
    (fun row column _ =>
       if (0 <=? row) && (row <=? 2) then mkIndex true row column (Z.to_N row + 1)
       else mkIndex false (-1) (-1) 0)
    (fun idx =>
       if (internalId idx =? 1)%N then Some artist_item
       else if (internalId idx =? 2)%N then Some song_item
       else None).

Definition root_index : QModelIndex := mkIndex false (-1) (-1) 0.

(** The float 4.0, and stand-ins for the two functions that the query
    takes from elsewhere: a parser that knows the rating [4.0], and a
    printer of floats that no example reads. *)
Definition four : Float32.float := S754_finite false 8388608 (-21).

Definition ParseSearchRating (s : QString) : Float32.float :=
  if String.eqb s "4.0" then four else S754_finite true 1 0.

Definition float_toString (f : Float32.float) : QString := EmptyString.

Definition no_options : CollectionFilterOptions := mkOptions (-1) FilterMode_All.

Definition last_week_untagged : CollectionFilterOptions :=
  mkOptions 604800 FilterMode_Untagged.

(** A query built at the time 1700000000 over the songs added in the last
    week that lack a tag, and the operations run on it. *)
Definition fresh_query : CollectionQuery :=
  CollectionQuery_new 1700000000 "songs" last_week_untagged.

Definition ops : list Operation :=
  [Op_AddWhere "artist" (QVariant_String (Some "Daft Punk")) "=";
   Op_AddWhere "track" (QVariant_StringList ["1"; "2"; "3"]) "IN";
   Op_AddWhere "year" (QVariant_Int 2020) "=";
   Op_AddWhere "album" (QVariant_String None) "<>";
   Op_AddWhereArtist (QVariant_String (Some "Justice"));
   Op_AddWhereRating (QVariant_String (Some "4.0")) "=";
   Op_AddWhereRating (QVariant_String (Some "4.0")) "<>";
   Op_AddCompilationRequirement true].

(** A query with the row limit -2. *)
Definition limit_minus_two : CollectionQuery :=
  mkQuery "songs" "ROWID" EmptyString [] [] false false (-2).

End Sample.

(** ** RemoveSqlOperator *)

(** The match of [rxOp], the expression [^(=|<[>=]?|>=?|!=)], at the head
    of the token: the captured text and the text after it. *)
Definition rxOp_match (token : QString) : option (QString * QString) :=
  match token with
  | EmptyString => None
  | String c rest =>
      if Ascii.eqb c "=" then Some ("=", rest)
      else if Ascii.eqb c "<" then
        match rest with
        | String d rest' =>
            if Ascii.eqb d ">" || Ascii.eqb d "="
            then Some (String c (String d EmptyString), rest')
            else Some ("<", rest)
        | EmptyString => Some ("<", rest)
        end
      else if Ascii.eqb c ">" then
        match rest with
        | String d rest' =>
            if Ascii.eqb d "=" then Some (">=", rest') else Some (">", rest)
        | EmptyString => Some (">", rest)
        end
      else if Ascii.eqb c "!" then
        match rest with
        | String d rest' =>
            if Ascii.eqb d "=" then Some ("!=", rest') else None
        | EmptyString => None
        end
      else None
  end.

(** [CollectionQuery::RemoveSqlOperator]: the operator returned, and the
    token as the call leaves it. *)
Definition RemoveSqlOperator (token : QString) : QString * QString :=
  let matched := rxOp_match token in
  let op := match matched with Some (captured, _) => captured | None => "=" end in
  let token := match matched with Some (_, rest) => rest | None => token end in
  let op := if String.eqb op "!=" then "<>" else op in
  (op, token).

(** The operators that the query knows. *)
Definition sql_operators : list QString := ["="; "<"; "<>"; "<="; ">"; ">="].

(** ** Words of the filter text *)

(** The characters other than [ch]. *)
Definition not_char (ch : ascii) (c : ascii) : bool := negb (Ascii.eqb c ch).

(** A word: a non-empty text without a character of [\s]. *)
Definition word (t : QString) : Prop :=
  isEmpty t = false /\ all_chars (fun c => negb (regex_space c)) t = true.

(** A word without a colon. *)
Definition plain_word (t : QString) : Prop :=
  word t /\ contains_char ":" t = false.

(** ** Views of one item

    Two values that show the same item of the tree: the same members and
    the same children.  What they show of the items above may differ. *)
Definition same_item (a b : CollectionItem) : Prop :=
  type a = type b
  /\ display_text a = display_text b
  /\ metadata a = metadata b
  /\ container_level a = container_level b
  /\ children a = children b.

(** The album of the small collection with its song below it, and the song
    with that album above it. *)
Module SampleTree.

Definition album_with_song : CollectionItem :=
  mkItem Type_Container "Discovery" Sample.no_song 1
    (Some Sample.artist_above) [Sample.song_item].

Definition song_below_album : CollectionItem :=
  mkItem Type_Song "One More Time" Sample.one_more_time (-1)
    (Some album_with_song) [].

End SampleTree.

(** ** Json values

    A [QJsonValue]; the members of an object are kept in the order in
    which the object is iterated, and a number is an IEEE 754 binary64
    number of [SpecFloat]. *)
#[warnings="-register-all"]
Inductive QJsonValue :=
| Json_Null
| Json_Bool (b : bool)
| Json_Double (d : spec_float)
| Json_String (s : QString)
| Json_Array (a : list QJsonValue)
| Json_Object (o : list (QString * QJsonValue))
| Json_Undefined.

Abbreviation QJsonObject := (list (QString * QJsonValue)).
Abbreviation QJsonArray := (list QJsonValue).

Module Json.

(** [QJsonObject::contains]. *)
Definition contains (o : QJsonObject) (key : QString) : bool :=
  existsb (fun member => String.eqb (fst member) key) o.

(** [QJsonObject::value], the value of [operator[]] on a key that the
    object contains; [Undefined] without the key. *)
Definition value (o : QJsonObject) (key : QString) : QJsonValue :=
  match find (fun member => String.eqb (fst member) key) o with
  | Some member => snd member
  | None => Json_Undefined
  end.

(** The values of an object, as a loop over the object takes them. *)
Definition values (o : QJsonObject) : list QJsonValue := map snd o.

Definition isObject (v : QJsonValue) : bool :=
  match v with Json_Object _ => true | _ => false end.

Definition isArray (v : QJsonValue) : bool :=
  match v with Json_Array _ => true | _ => false end.

(** [QJsonValue::toObject]: the empty object for another type. *)
Definition toObject (v : QJsonValue) : QJsonObject :=
  match v with Json_Object o => o | _ => [] end.

(** [QJsonValue::toArray]: the empty array for another type. *)
Definition toArray (v : QJsonValue) : QJsonArray :=
  match v with Json_Array a => a | _ => [] end.

(** [QJsonValue::toString]: the empty string for another type. *)
Definition toString (v : QJsonValue) : QString :=
  match v with Json_String s => s | _ => EmptyString end.

(** The [int] that a double is, when it is a whole number in the range of
    [int]. *)
Definition double_to_int (d : spec_float) : option Z :=
  match d with
  | S754_zero _ => Some 0
  | S754_finite s m e =>
      let magnitude :=
        if 0 <=? e then Some (Z.pos m * 2 ^ e)
        else if Z.pos m mod 2 ^ (- e) =? 0 then Some (Z.pos m / 2 ^ (- e))
        else None in
      match magnitude with
      | Some n =>
          let z := if s then - n else n in
          if (-2147483648 <=? z) && (z <=? 2147483647) then Some z else None
      | None => None
      end
  | _ => None
  end.

(** [QJsonValue::toInt]: 0 for another type and for a number that is no
    [int]. *)
Definition toInt (v : QJsonValue) : Z :=
  match v with
  | Json_Double d => match double_to_int d with Some z => z | None => 0 end
  | _ => 0
  end.

End Json.

(** [QString::endsWith(suffix, Qt::CaseInsensitive)]. *)
Fixpoint endsWith_ci (s suffix : QString) : bool :=
  equal_ci s suffix
  || match s with
     | EmptyString => false
     | String _ s' => endsWith_ci s' suffix
     end.

(** ** WikipediaArtistBio *)

Module Wikipedia.

Definition kMinimumImageSize : Z := 400.

Section ExtractImageUrls.

(** [QUrl(text).isValid()]. *)
Variable QUrl_isValid : QString -> bool.

(** The body of the loop of [ExtractImageUrls] over the array [imageinfo]
    of a page: the url that the image adds, if any. *)
Definition image_url (value_image : QJsonValue) : list QString :=
  if negb (Json.isObject value_image) then []
  else
    let obj_image := Json.toObject value_image in
    if negb (Json.contains obj_image "url")
       || negb (Json.contains obj_image "width")
       || negb (Json.contains obj_image "height") then []
    else
      let url := Json.toString (Json.value obj_image "url") in
      let width := Json.toInt (Json.value obj_image "width") in
      let height := Json.toInt (Json.value obj_image "height") in
      if negb (QUrl_isValid url) || (width <? kMinimumImageSize)
         || (height <? kMinimumImageSize) then []
      else [url].

(** The body of the loop of [ExtractImageUrls] over the pages. *)
Definition page_urls (value_page : QJsonValue) : list QString :=
  if negb (Json.isObject value_page) then []
  else
    let obj_page := Json.toObject value_page in
    if negb (Json.contains obj_page "title")
       || negb (Json.contains obj_page "imageinfo")
       || negb (Json.isArray (Json.value obj_page "imageinfo")) then []
    else
      flat_map image_url (Json.toArray (Json.value obj_page "imageinfo")).

(** [WikipediaArtistBio::ExtractImageUrls]; an url is its text. *)
Definition ExtractImageUrls (json_obj : QJsonObject) : list QString :=
  if Json.contains json_obj "query" && Json.isObject (Json.value json_obj "query")
  then
    let json_obj := Json.toObject (Json.value json_obj "query") in
    if Json.contains json_obj "pages"
       && Json.isObject (Json.value json_obj "pages")
    then
      let value_pages := Json.toObject (Json.value json_obj "pages") in
      flat_map page_urls (Json.values value_pages)
    else []
  else [].

End ExtractImageUrls.

(** The body of the loop of [GetImageTitlesFinished] over the array
    [images] of a page: the title that the image adds, if any. *)
Definition image_title (value_image : QJsonValue) : list QString :=
  if negb (Json.isObject value_image) then []
  else
    let obj_image := Json.toObject value_image in
    if negb (Json.contains obj_image "title") then []
    else
      let filename := Json.toString (Json.value obj_image "title") in
      if endsWith_ci filename ".jpg" || endsWith_ci filename ".png"
      then [filename] else [].

Definition page_titles (value_page : QJsonValue) : list QString :=
  if negb (Json.isObject value_page) then []
  else
    let obj_page := Json.toObject value_page in
    if negb (Json.contains obj_page "title")
       || negb (Json.contains obj_page "images")
       || negb (Json.isArray (Json.value obj_page "images")) then []
    else
      flat_map image_title (Json.toArray (Json.value obj_page "images")).

(** The list [titles] of [GetImageTitlesFinished], from the object of the
    reply: the titles for which [GetImage] is called, in this order. *)
Definition GetImageTitlesFinished_titles (json_obj : QJsonObject) : list QString :=
  if negb (match json_obj with [] => true | _ => false end)
     && Json.contains json_obj "query"
     && Json.isObject (Json.value json_obj "query")
  then
    let json_obj := Json.toObject (Json.value json_obj "query") in
    if Json.contains json_obj "pages"
       && Json.isObject (Json.value json_obj "pages")
    then
      let value_pages := Json.toObject (Json.value json_obj "pages") in
      flat_map page_titles (Json.values value_pages)
    else []
  else [].

End Wikipedia.

(** ** SpotifyCoverProvider *)

Module Spotify.

Definition kLimit : Z := 10.

Definition Param : Type := QString * QString.

(** [SpotifyCoverProvider::StartSearch] up to the list of parameters:
    [None] when the function returns false, and otherwise the parameters
    of the request and the [extract] that the reply is handled with. *)
Definition StartSearch (IsAuthenticated : bool) (artist album title : QString)
    : option (list Param * QString) :=
  if negb IsAuthenticated then None
  else if isEmpty artist && isEmpty album && isEmpty title then None
  else
    let query := artist in
    let '(type, extract, query) :=
      if isEmpty album && negb (isEmpty title) then
        ("track", "tracks",
         (if negb (isEmpty query) then query ++ " " else query) ++ title)
      else
        ("album", "albums",
         if negb (isEmpty album)
         then (if negb (isEmpty query) then query ++ " " else query) ++ album
         else query) in
    Some ([("q", query); ("type", type); ("limit", number kLimit)], extract).

(** [CoverProviderSearchResult], the members that the search sets. *)
Record CoverProviderSearchResult := mkResult {
  artist : QString;
  album : QString;
  image_url : QString;
  image_size : Z * Z
}.

(** The loop of [HandleSearchReply] over the artists of an album. *)
Definition artist_name (value_artist : QJsonValue) : list QString :=
  if negb (Json.isObject value_artist) then []
  else
    let obj_artist := Json.toObject value_artist in
    if negb (Json.contains obj_artist "name") then []
    else [Json.toString (Json.value obj_artist "name")].

(** The body of the loop of [HandleSearchReply] over the images of an
    album. *)
Definition image_result (album : QString) (artists : list QString)
    (value_image : QJsonValue) : list CoverProviderSearchResult :=
  if negb (Json.isObject value_image) then []
  else
    let obj_image := Json.toObject value_image in
    if negb (Json.contains obj_image "url")
       || negb (Json.contains obj_image "width")
       || negb (Json.contains obj_image "height") then []
    else
      let width := Json.toInt (Json.value obj_image "width") in
      let height := Json.toInt (Json.value obj_image "height") in
      if (width <? 300) || (height <? 300) then []
      else
        let url := Json.toString (Json.value obj_image "url") in
        [mkResult (match artists with a :: _ => a | [] => EmptyString end)
           album url (width, height)].

(** The body of the loop of [HandleSearchReply] over the items. *)
Definition item_results (value_item : QJsonValue) : list CoverProviderSearchResult :=
  if negb (Json.isObject value_item) then []
  else
    let obj_item := Json.toObject value_item in
    let obj_album :=
      if Json.contains obj_item "album"
         && Json.isObject (Json.value obj_item "album")
      then Json.toObject (Json.value obj_item "album")
      else obj_item in
    if negb (Json.contains obj_album "artists")
       || negb (Json.contains obj_album "name")
       || negb (Json.contains obj_album "images")
       || negb (Json.isArray (Json.value obj_album "artists"))
       || negb (Json.isArray (Json.value obj_album "images")) then []
    else
      let array_artists := Json.toArray (Json.value obj_album "artists") in
      let array_images := Json.toArray (Json.value obj_album "images") in
      let album := Json.toString (Json.value obj_album "name") in
      let artists := flat_map artist_name array_artists in
      flat_map (image_result album artists) array_images.

(** [SpotifyCoverProvider::HandleSearchReply] from the object of the reply
    on: the results that [SearchFinished] is emitted with. *)
Definition HandleSearchReply_results (extract : QString) (json_obj : QJsonObject)
    : list CoverProviderSearchResult :=
  match json_obj with
  | [] => []
  | _ =>
      if negb (Json.contains json_obj extract)
         || negb (Json.isObject (Json.value json_obj extract)) then []
      else
        let json_obj := Json.toObject (Json.value json_obj extract) in
        if negb (Json.contains json_obj "items")
           || negb (Json.isArray (Json.value json_obj "items")) then []
        else
          let array_items := Json.toArray (Json.value json_obj "items") in
          flat_map item_results array_items
  end.

End Spotify.

(** A reply of each service. *)
Module SampleJson.

(** The doubles 1000, 600 and 200. *)
Definition d1000 : spec_float := S754_finite false 1000 0.
Definition d600 : spec_float := S754_finite false 75 3.
Definition d200 : spec_float := S754_finite false 25 3.

Definition image (url : QString) (width height : spec_float) : QJsonValue :=
  Json_Object [("height", Json_Double height); ("url", Json_String url);
               ("width", Json_Double width)].

Definition wikipedia_images : QJsonObject :=
  [("query",
    Json_Object
      [("pages",
        Json_Object
          [("1234",
            Json_Object
              [("imageinfo",
                Json_Array
                  [image "https://upload.example/large.jpg" d1000 d600;
                   image "https://upload.example/small.jpg" d200 d200]);
               ("title", Json_String "File:Daft Punk.jpg")])])])].

Definition QUrl_isValid (url : QString) : bool := negb (isEmpty url).

Definition spotify_albums : QJsonObject :=
  [("albums",
    Json_Object
      [("items",
        Json_Array
          [Json_Object
             [("artists",
               Json_Array [Json_Object [("name", Json_String "Daft Punk")];
                           Json_Object [("name", Json_String "Guest")]]);
              ("images",
               Json_Array
                 [image "https://i.example/640" d600 d600;
                  image "https://i.example/64" d200 d200]);
              ("name", Json_String "Discovery")]])])].

End SampleJson.

(** Membership in a list of literals. *)
Ltac in_literals :=
  simpl; repeat first [left; reflexivity | right].

(** ** The statement, written out *)

(** The join of [GetInnerQuery] with the name of the table in the place of
    [%songs_table]. *)
Definition inner_query_of (duplicates_only : bool) (songs_table : QString) : QString :=
  if duplicates_only then
    " INNER JOIN (select * from duplicated_songs) dsongs        "
    ++ "ON (" ++ songs_table ++ ".artist = dsongs.dup_artist       "
    ++ "AND " ++ songs_table ++ ".album = dsongs.dup_album     "
    ++ "AND " ++ songs_table ++ ".title = dsongs.dup_title)    "
  else EmptyString.

(** The WHERE, ORDER BY and LIMIT parts of the statement. *)
Definition where_text (q : CollectionQuery) : QString :=
  match Exec_where_clauses q with
  | [] => EmptyString
  | clauses => " WHERE " ++ String.concat " AND " clauses
  end.

Definition order_text (q : CollectionQuery) : QString :=
  if isEmpty (order_by_ q) then EmptyString else " ORDER BY " ++ order_by_ q.

Definition limit_text (q : CollectionQuery) : QString :=
  if limit_ q =? -1 then EmptyString else " LIMIT " ++ number (limit_ q).

(** * Properties *)

(** ** QString *)

Example section_before : section ":" 0 0 "artist:Daft:Punk" = "artist".
Proof. reflexivity. Qed.
Example section_after : section ":" 1 (-1) "artist:Daft:Punk" = "Daft:Punk".
Proof. reflexivity. Qed.
Example section_nocolon : section ":" 1 (-1) "artist" = "".
Proof. reflexivity. Qed.
Example section_leading : section ":" 0 0 ":x" = "".
Proof. reflexivity. Qed.
Example split_ws_ex :
  split_ws "  unknown:foo   bar " = ["unknown:foo"; "bar"].
Proof. reflexivity. Qed.
Example trimmed_ex : trimmed "  a b  " = "a b".
Proof. reflexivity. Qed.
Example replace_ex :
  replace "%songs_table" "songs" "ON (%songs_table.artist = %songs_tablex)"
  = "ON (songs.artist = songsx)".
Proof. reflexivity. Qed.

(** ** Induction on the collection tree *)

Lemma CollectionItem_down_ind (P : CollectionItem -> Prop) :
  (forall item, (forall c, In c (children item) -> P c) -> P item) ->
  forall item, P item.
Proof.
  intros H. fix IH 1. intros item. apply H.
  destruct item as [t d m l p cs]. simpl.
  induction cs as [|x xs IHxs]; intros c Hc.
  - destruct Hc.
  - destruct Hc as [<- | Hc].
    + apply IH.
    + apply IHxs, Hc.
Qed.

Lemma CollectionItem_up_ind (P : CollectionItem -> Prop) :
  (forall item, (forall p, parent item = Some p -> P p) -> P item) ->
  forall item, P item.
Proof.
  intros H. fix IH 1. intros item. apply H.
  destruct item as [t d m l [p0|] cs]; simpl; intros p Hp.
  - injection Hp as <-. apply IH.
  - discriminate Hp.
Qed.

(** ** The tree filter *)

Section TreeFilter.

Variable model : CollectionModel.
Variable tags : Tags.
Variable filter : QString.

Lemma ChildrenMatches_unfold (item : CollectionItem) :
  ChildrenMatches model item tags filter
  = ItemMatches model item tags filter
    || existsb (fun c => ChildrenMatches model c tags filter) (children item).
Proof. destruct item; reflexivity. Qed.

Lemma ParentMatches_unfold (item : CollectionItem) :
  ParentMatches model item tags filter
  = match parent item with
    | Some p => ItemMatches model p tags filter || ParentMatches model p tags filter
    | None => false
    end.
Proof. destruct item as [t d m l [p|] cs]; reflexivity. Qed.

(** [ChildrenMatches] finds a match in the subtree of the item: the item
    itself or one of the items below it. *)
Lemma ChildrenMatches_spec (item : CollectionItem) :
  ChildrenMatches model item tags filter = true <->
  ItemMatches model item tags filter = true
  \/ exists d, descendant_of d item /\ ItemMatches model d tags filter = true.
Proof.
  induction item as [item IH] using CollectionItem_down_ind.
  rewrite ChildrenMatches_unfold, orb_true_iff, existsb_exists.
  split.
  - intros [Hself | (c & Hin & Hc)]; [now left | right].
    apply (IH c Hin) in Hc as [Hc | (d & Hd & Hm)].
    + exists c. split; [now apply descendant_child | exact Hc].
    + exists d. split; [now apply descendant_down with c | exact Hm].
  - intros [Hself | (d & Hd & Hm)]; [now left | right].
    inversion Hd as [it c Hin | it c d' Hin Hdc]; subst.
    + exists d. split; [exact Hin |].
      apply (IH d Hin). now left.
    + exists c. split; [exact Hin |].
      apply (IH c Hin). right. now exists d.
Qed.

(** The loop over the [parent] pointers finds a match above the item. *)
Lemma ParentMatches_spec (item : CollectionItem) :
  ParentMatches model item tags filter = true <->
  exists a, ancestor_of a item /\ ItemMatches model a tags filter = true.
Proof.
  induction item as [item IH] using CollectionItem_up_ind.
  rewrite ParentMatches_unfold.
  destruct (parent item) as [p|] eqn:Hp.
  - rewrite orb_true_iff. split.
    + intros [Hm | Hup].
      * exists p. split; [now apply ancestor_parent | exact Hm].
      * apply (IH p eq_refl) in Hup as (a & Ha & Hm).
        exists a. split; [now apply ancestor_up with p | exact Hm].
    + intros (a & Ha & Hm).
      inversion Ha as [it p' Hp' | it p' a' Hp' Hap]; subst;
        rewrite Hp in Hp'; injection Hp' as <-.
      * now left.
      * right. apply (IH p eq_refl). now exists a.
  - split; [discriminate |].
    intros (a & Ha & _).
    inversion Ha as [it p' Hp' | it p' a' Hp' Hap]; subst;
      rewrite Hp in Hp'; discriminate.
Qed.

End TreeFilter.

Lemma ItemMatches_no_filter (model : CollectionModel) (item : CollectionItem) :
  ItemMatches model item ∅ EmptyString = true.
Proof. reflexivity. Qed.

Lemma isEmpty_true (s : QString) : isEmpty s = true -> s = EmptyString.
Proof. destruct s; [reflexivity | discriminate]. Qed.

Lemma ItemType_eqb_neq (a b : ItemType) : a <> b -> ItemType_eqb a b = false.
Proof. destruct a, b; simpl; congruence. Qed.

(** C1.  For a row that resolves to an item other than the loading
    indicator, [filterAcceptsRow] accepts the row if and only if the item
    matches the parsed filter, or an item above it matches, or an item
    below it matches. *)
Theorem filterAcceptsRow_visible
    (kColumns : list QString) (sourceModel : option QAbstractItemModel)
    (qt6 : bool) (pattern : QString) (source_row : Z)
    (source_parent : QModelIndex)
    (model : CollectionModel) (item : CollectionItem) :
  qobject_cast sourceModel = Some model ->
  isValid (index model source_row 0 source_parent) = true ->
  IndexToItem model (index model source_row 0 source_parent) = Some item ->
  type item <> Type_LoadingIndicator ->
  let parsed := Parse kColumns (filter_of_pattern qt6 pattern) in
  let matches i := ItemMatches model i (snd parsed) (fst parsed) = true in
  filterAcceptsRow kColumns sourceModel qt6 pattern source_row source_parent = true
  <-> (matches item
       \/ (exists a, ancestor_of a item /\ matches a)
       \/ (exists d, descendant_of d item /\ matches d)).
Proof.
  intros Hcast Hvalid Hitem Htype parsed matches.
  unfold filterAcceptsRow. rewrite Hcast. simpl. rewrite Hvalid, Hitem. simpl.
  unfold filterAcceptsItem. rewrite (ItemType_eqb_neq _ _ Htype).
  subst matches parsed. cbv zeta.
  destruct (isEmpty (filter_of_pattern qt6 pattern)) eqn:Hempty.
  - apply isEmpty_true in Hempty. rewrite Hempty.
    split; [intros _; left; reflexivity | reflexivity].
  - destruct (Parse kColumns (filter_of_pattern qt6 pattern)) as [filter tags].
    simpl fst; simpl snd.
    destruct (ItemMatches model item tags filter) eqn:Hself.
    { split; [intros _; now left | reflexivity]. }
    destruct (ParentMatches model item tags filter) eqn:Hup.
    { split; [intros _ | reflexivity].
      right; left. now apply ParentMatches_spec. }
    rewrite ChildrenMatches_spec, Hself.
    split.
    + intros [Hf | Hd]; [discriminate | now right; right].
    + intros [Hf | [Ha | Hd]]; [discriminate | | now right].
      apply ParentMatches_spec in Ha. congruence.
Qed.

(** C9.  When the source model is missing or of another class, or the index
    of the row is invalid, or the index resolves to no item,
    [filterAcceptsRow] returns false. *)
Theorem filterAcceptsRow_fails_closed
    (kColumns : list QString) (sourceModel : option QAbstractItemModel)
    (qt6 : bool) (pattern : QString) (source_row : Z)
    (source_parent : QModelIndex) :
  (qobject_cast sourceModel = None
   \/ (exists model, qobject_cast sourceModel = Some model
         /\ (isValid (index model source_row 0 source_parent) = false
             \/ IndexToItem model (index model source_row 0 source_parent) = None))) ->
  filterAcceptsRow kColumns sourceModel qt6 pattern source_row source_parent = false.
Proof.
  unfold filterAcceptsRow.
  intros [Hnone | (model & Hcast & [Hinvalid | Hnoitem])].
  - now rewrite Hnone.
  - rewrite Hcast. simpl. now rewrite Hinvalid.
  - rewrite Hcast. simpl. rewrite Hnoitem.
    now destruct (isValid _).
Qed.

Lemma filterAcceptsRow_visible_witness :
  filterAcceptsRow kColumns_spec (Some (IsCollectionModel Sample.model))
    false "title:time" 0 Sample.root_index = true
  <-> (ItemMatches Sample.model Sample.artist_item
         (snd (Parse kColumns_spec "title:time"))
         (fst (Parse kColumns_spec "title:time")) = true
       \/ (exists a, ancestor_of a Sample.artist_item
              /\ ItemMatches Sample.model a
                   (snd (Parse kColumns_spec "title:time"))
                   (fst (Parse kColumns_spec "title:time")) = true)
       \/ (exists d, descendant_of d Sample.artist_item
              /\ ItemMatches Sample.model d
                   (snd (Parse kColumns_spec "title:time"))
                   (fst (Parse kColumns_spec "title:time")) = true)).
Proof.
  apply (filterAcceptsRow_visible kColumns_spec
           (Some (IsCollectionModel Sample.model)) false "title:time" 0
           Sample.root_index Sample.model Sample.artist_item).
  - reflexivity.
  - reflexivity.
  - reflexivity.
  - discriminate.
Defined.

Lemma filterAcceptsRow_fails_closed_witness :
  filterAcceptsRow kColumns_spec (Some (IsCollectionModel Sample.model))
    false "title:time" 5 Sample.root_index = false.
Proof.
  apply (filterAcceptsRow_fails_closed kColumns_spec
           (Some (IsCollectionModel Sample.model)) false "title:time" 5
           Sample.root_index).
  right. exists Sample.model. split; [reflexivity | left; reflexivity].
Defined.

(** The song below the artist keeps the artist's row visible, and the
    matching artist container shows the song below it. *)
Example artist_row_visible_by_song :
  filterAcceptsRow kColumns_spec (Some (IsCollectionModel Sample.model))
    false "title:time" 0 Sample.root_index = true.
Proof. vm_compute. reflexivity. Qed.

Example song_row_visible_by_artist :
  filterAcceptsRow kColumns_spec (Some (IsCollectionModel Sample.model))
    false "daft" 1 Sample.root_index = true.
Proof. vm_compute. reflexivity. Qed.

Example song_row_hidden :
  filterAcceptsRow kColumns_spec (Some (IsCollectionModel Sample.model))
    false "album:homework" 1 Sample.root_index = false.
Proof. vm_compute. reflexivity. Qed.

(** ** The filter language *)

Section FilterLanguage.

Variable kColumns : list QString.

(** A token without a colon goes to the free text. *)
Lemma parse_token_plain (filter : QString) (tags : Tags) (token : QString) :
  contains_char ":" token = false ->
  parse_token kColumns (filter, tags) token = (append_token filter token, tags).
Proof. intros H. unfold parse_token. now rewrite H. Qed.

(** A token with a recognized tag and two non-empty halves is recorded
    under the tag as it is written in the token. *)
Lemma parse_token_tag (filter : QString) (tags : Tags) (token : QString) :
  contains_char ":" token = true ->
  list_contains_ci kColumns (section ":" 0 0 token) = true ->
  isEmpty (trimmed (remove ":" (section ":" 0 0 token))) = false ->
  isEmpty (trimmed (remove ":" (section ":" 1 (-1) token))) = false ->
  parse_token kColumns (filter, tags) token
  = (filter,
     <[trimmed (remove ":" (section ":" 0 0 token))
       := trimmed (remove ":" (section ":" 1 (-1) token))]> tags).
Proof.
  intros Hc Hk Ht Hv. unfold parse_token. now rewrite Hc, Hk, Ht, Hv.
Qed.

(** A token with an unrecognized prefix goes to the free text without its
    colons, unless nothing is left of it. *)
Lemma parse_token_unknown (filter : QString) (tags : Tags) (token : QString) :
  contains_char ":" token = true ->
  list_contains_ci kColumns (section ":" 0 0 token) = false ->
  parse_token kColumns (filter, tags) token
  = if isEmpty (trimmed (remove ":" token)) then (filter, tags)
    else (append_token filter (trimmed (remove ":" token)), tags).
Proof.
  intros Hc Hk. unfold parse_token. rewrite Hc, Hk.
  now destruct (isEmpty _).
Qed.

End FilterLanguage.

(** C3, as the code has it.  A token with a colon whose part before the
    first colon is a recognized field name, and whose tag half or value
    half is empty after trimming, changes neither the tag map nor the free
    text: the token is dropped. *)
Theorem parse_token_empty_half_dropped
    (kColumns : list QString) (acc : QString * Tags) (token : QString) :
  contains_char ":" token = true ->
  list_contains_ci kColumns (section ":" 0 0 token) = true ->
  isEmpty (trimmed (remove ":" (section ":" 0 0 token)))
  || isEmpty (trimmed (remove ":" (section ":" 1 (-1) token))) = true ->
  parse_token kColumns acc token = acc.
Proof.
  intros Hc Hk He. destruct acc as [filter tags].
  unfold parse_token. rewrite Hc, Hk.
  apply orb_true_iff in He as [He | He]; rewrite He; [reflexivity |].
  now rewrite andb_false_r.
Qed.

Lemma parse_token_empty_half_dropped_witness :
  parse_token kColumns_spec ("house", ∅) "artist:" = ("house", ∅).
Proof.
  apply (parse_token_empty_half_dropped kColumns_spec ("house", ∅) "artist:").
  - reflexivity.
  - reflexivity.
  - reflexivity.
Defined.

(** C3, as the claim has it, fails at the token [artist:]: the token has a
    colon, a recognized field name before it and an empty value, its text
    without the colon is [artist], and yet the free text stays empty. *)
Lemma parse_token_artist_colon_not_free_text :
  contains_char ":" "artist:" = true
  /\ list_contains_ci kColumns_spec (section ":" 0 0 "artist:") = true
  /\ trimmed (remove ":" (section ":" 1 (-1) "artist:")) = EmptyString
  /\ trimmed (remove ":" "artist:") = "artist"
  /\ parse_token kColumns_spec (EmptyString, ∅) "artist:"
     <> (append_token EmptyString (trimmed (remove ":" "artist:")), ∅)
  /\ Parse kColumns_spec "artist:" = (EmptyString, ∅).
Proof.
  repeat split; try reflexivity.
  vm_compute. discriminate.
Qed.

(** C7, as the code has it.  With [unknown] not a recognized field name,
    the filter text [unknown:foo bar] parses to the empty tag map and the
    free text [unknownfoo bar]: the colon is removed from the token and
    both of its halves stay. *)
Theorem Parse_unknown_foo_bar (kColumns : list QString) :
  list_contains_ci kColumns "unknown" = false ->
  Parse kColumns "unknown:foo bar" = ("unknownfoo bar", ∅).
Proof.
  intros Hk. unfold Parse.
  change (split_ws "unknown:foo bar") with ["unknown:foo"; "bar"].
  cbn [fold_left].
  rewrite parse_token_unknown; [| reflexivity | exact Hk].
  change (trimmed (remove ":" "unknown:foo")) with "unknownfoo".
  cbn [isEmpty].
  rewrite parse_token_plain by reflexivity.
  reflexivity.
Qed.

Lemma Parse_unknown_foo_bar_witness :
  Parse kColumns_spec "unknown:foo bar" = ("unknownfoo bar", ∅).
Proof.
  apply (Parse_unknown_foo_bar kColumns_spec). reflexivity.
Defined.

(** C7, as the claim has it, fails: the free text of [unknown:foo bar] is
    not [foo bar]. *)
Lemma Parse_unknown_foo_bar_not_foo_bar :
  Parse kColumns_spec "unknown:foo bar" <> ("foo bar", ∅).
Proof. vm_compute. discriminate. Qed.

(** The tag is kept in the letter case of the token: [Artist:] and
    [artist:] are two keys of the map, the container overload of
    [TagMatches] looks up the lowercase key only, and the song overload
    lowers the key before it compares. (C2) *)
Theorem Parse_keeps_tag_case :
  Parse kColumns_spec "Artist:Daft" = (EmptyString, <["Artist" := "Daft"]> ∅)
  /\ snd (Parse kColumns_spec "Artist:Daft") !! "artist" = None
  /\ Parse kColumns_spec "Artist:a artist:b"
     = (EmptyString, <["artist" := "b"]> (<["Artist" := "a"]> ∅))
  /\ size (snd (Parse kColumns_spec "Artist:a artist:b")) = 2%nat
  /\ TagMatches_song Sample.song_item
       (snd (Parse kColumns_spec "Artist:Daft")) = true
  /\ TagMatches_container Sample.artist_item GroupBy_Artist
       (snd (Parse kColumns_spec "Artist:Daft")) = false
  /\ TagMatches_container Sample.artist_item GroupBy_Artist
       (snd (Parse kColumns_spec "artist:Daft")) = true.
Proof. repeat split; vm_compute; reflexivity. Qed.

(** ** Strings of the query *)

Lemma string_app_assoc (a b c : QString) : (a ++ b) ++ c = a ++ (b ++ c).
Proof. induction a as [|x a IH]; simpl; [reflexivity | now rewrite IH]. Qed.

Lemma string_app_nil_r (a : QString) : a ++ EmptyString = a.
Proof. induction a as [|x a IH]; simpl; [reflexivity | now rewrite IH]. Qed.

Lemma string_length_app (a b : QString) :
  String.length (a ++ b) = (String.length a + String.length b)%nat.
Proof. induction a as [|x a IH]; simpl; [reflexivity | now rewrite IH]. Qed.

Lemma count_app (c : ascii) (a b : QString) :
  count c (a ++ b) = (count c a + count c b)%nat.
Proof. induction a as [|x a IH]; simpl; [reflexivity | rewrite IH; lia]. Qed.

Lemma count_all_chars (P : ascii -> bool) (c : ascii) (s : QString) :
  all_chars P s = true -> P c = false -> count c s = O.
Proof.
  intros Hall Hc. induction s as [|x s IH]; simpl in *; [reflexivity |].
  apply andb_true_iff in Hall as [Hx Hs].
  destruct (Ascii.eqb_spec x c) as [-> | _]; [congruence | now apply IH].
Qed.

Lemma string_of_uint_decimal (d : Decimal.uint) :
  all_chars decimal_char (NilEmpty.string_of_uint d) = true.
Proof. induction d; simpl; auto. Qed.

(** [QString::number] writes digits and the minus sign only. *)
Lemma number_decimal (z : Z) : all_chars decimal_char (number z) = true.
Proof.
  assert (Hu : forall d, all_chars decimal_char (NilZero.string_of_uint d) = true).
  { intros d. destruct d; try reflexivity; apply (string_of_uint_decimal (_ _)). }
  unfold number, NilZero.string_of_int.
  destruct (Z.to_int z) as [d | d]; [apply Hu |].
  change (decimal_char "-" && all_chars decimal_char (NilZero.string_of_uint d) = true).
  now rewrite Hu.
Qed.

Lemma count_number (c : ascii) (z : Z) :
  decimal_char c = false -> count c (number z) = O.
Proof. apply count_all_chars, number_decimal. Qed.

Lemma placeholders_app (l1 l2 : list QString) :
  placeholders (l1 ++ l2) = (placeholders l1 + placeholders l2)%nat.
Proof. unfold placeholders. now rewrite map_app, list_sum_app. Qed.

Lemma placeholders_one (clause : QString) :
  placeholders [clause] = count "?" clause.
Proof. unfold placeholders. simpl. lia. Qed.

(** ** QString::arg *)

Lemma arg_char (c : ascii) (rest : QString) (args : list QString) :
  Ascii.eqb c "%" = false ->
  arg (String c rest) args = String c (arg rest args).
Proof. intros Hc. destruct rest; simpl; [reflexivity | now rewrite Hc]. Qed.

Lemma arg_no_marker (s : QString) (args : list QString) :
  count "%" s = O -> arg s args = s.
Proof.
  induction s as [|c s IH]; intros Hs; [reflexivity |].
  simpl in Hs. destruct (Ascii.eqb c "%") eqn:Hc; [discriminate |].
  rewrite (arg_char _ _ _ Hc), IH; [reflexivity | exact Hs].
Qed.

Lemma arg_column_op_placeholder (column op : QString) :
  arg "%1 %2 ?" [column; op] = column ++ " " ++ op ++ " ?".
Proof. reflexivity. Qed.

Lemma arg_column_op_literal (column op literal : QString) :
  arg "%1 %2 %3" [column; op; literal] = column ++ " " ++ op ++ " " ++ literal.
Proof. simpl. now rewrite string_app_nil_r. Qed.

Lemma arg_column_in (column list_text : QString) :
  count "%" list_text = O ->
  arg ("%1 IN (" ++ list_text ++ ")") [column]
  = column ++ " IN (" ++ list_text ++ ")".
Proof.
  intros Hl.
  change ("%1 IN (" ++ list_text ++ ")")
    with (String "%" (String "1" (" IN (" ++ list_text ++ ")"))).
  change (arg (String "%" (String "1" (" IN (" ++ list_text ++ ")"))) [column])
    with (column ++ arg (" IN (" ++ list_text ++ ")") [column]).
  rewrite arg_no_marker; [reflexivity |].
  rewrite !count_app, Hl. reflexivity.
Qed.

(** ** The text that Exec joins *)

Lemma concat_contains (sep x : QString) (l : list QString) :
  In x l -> exists pre post, String.concat sep l = pre ++ x ++ post.
Proof.
  induction l as [|a l IH]; intros Hin; [destruct Hin |].
  destruct l as [|b l].
  - destruct Hin as [-> | []].
    exists EmptyString, EmptyString. simpl. now rewrite string_app_nil_r.
  - change (String.concat sep (a :: b :: l))
      with (a ++ sep ++ String.concat sep (b :: l)).
    destruct Hin as [-> | Hin].
    + exists EmptyString, (sep ++ String.concat sep (b :: l)). reflexivity.
    + destruct (IH Hin) as (pre & post & ->).
      exists (a ++ sep ++ pre), post. now rewrite !string_app_assoc.
Qed.

(** A clause of the local [where_clauses] of [Exec] stands in the text of
    the statement. *)
Lemma Exec_sql_limit_contains (q : CollectionQuery) (clause : QString) :
  In clause (Exec_where_clauses q) ->
  exists pre post, Exec_sql_limit q = pre ++ clause ++ post.
Proof.
  intros Hin.
  assert (Hw : exists pre post, Exec_sql_where q = pre ++ clause ++ post).
  { unfold Exec_sql_where.
    set (sql := arg _ _).
    destruct (concat_contains " AND " clause _ Hin) as (pre & post & Hc).
    destruct (Exec_where_clauses q) as [|c cs] eqn:Hcs; [destruct Hin |].
    rewrite Hc. exists (sql ++ " WHERE " ++ pre), post.
    now rewrite !string_app_assoc. }
  destruct Hw as (pre & post & Hw).
  assert (Ho : exists post', Exec_sql_order q = pre ++ clause ++ post').
  { unfold Exec_sql_order. rewrite Hw.
    destruct (negb (isEmpty (order_by_ q))); [| now exists post].
    exists (post ++ " ORDER BY " ++ order_by_ q).
    now rewrite !string_app_assoc. }
  destruct Ho as (post' & Ho).
  unfold Exec_sql_limit. rewrite Ho.
  destruct (negb (limit_ q =? -1)); [| now exists pre, post'].
  exists pre, (post' ++ " LIMIT " ++ number (limit_ q)).
  now rewrite !string_app_assoc.
Qed.

(** ** The clauses and the bound values of the query *)

Lemma push_where_appended (clause : QString) (q : CollectionQuery) :
  push_where clause q = appended [clause] [] q.
Proof. unfold push_where, appended. now rewrite app_nil_r. Qed.

Lemma push_bound_appended (value : QVariant) (q : CollectionQuery) :
  push_bound value q = appended [] [value] q.
Proof. unfold push_bound, appended. now rewrite app_nil_r. Qed.

Lemma appended_appended (cs1 cs2 : list QString) (vs1 vs2 : list QVariant)
    (q : CollectionQuery) :
  appended cs2 vs2 (appended cs1 vs1 q) = appended (cs1 ++ cs2) (vs1 ++ vs2) q.
Proof. unfold appended. simpl. now rewrite !app_assoc. Qed.

Lemma appended_nil (q : CollectionQuery) : appended [] [] q = q.
Proof. destruct q. unfold appended. simpl. now rewrite !app_nil_r. Qed.

Lemma concat_placeholders_count (n : nat) :
  count "?" (String.concat "," (repeat "?" n)) = n.
Proof.
  induction n as [|n IH]; [reflexivity |].
  destruct n as [|n]; [reflexivity |].
  change (repeat "?" (S (S n))) with ("?" :: repeat "?" (S n)).
  change (String.concat "," ("?" :: repeat "?" (S n)))
    with ("?" ++ "," ++ String.concat "," (repeat "?" (S n))).
  rewrite !count_app, IH. reflexivity.
Qed.

Lemma concat_placeholders_no_marker (n : nat) :
  count "%" (String.concat "," (repeat "?" n)) = O.
Proof.
  induction n as [|n IH]; [reflexivity |].
  destruct n as [|n]; [reflexivity |].
  change (repeat "?" (S (S n))) with ("?" :: repeat "?" (S n)).
  change (String.concat "," ("?" :: repeat "?" (S n)))
    with ("?" ++ "," ++ String.concat "," (repeat "?" (S n))).
  rewrite !count_app, IH. reflexivity.
Qed.

Lemma repeat_snoc {A : Type} (x : A) (n : nat) :
  (repeat x n ++ [x])%list = repeat x (S n).
Proof. induction n as [|n IH]; simpl; [reflexivity | now rewrite IH]. Qed.

(** The loop of [AddWhere] over an IN list: one [?] and one bound string
    per value, in the order of the list. *)
Lemma AddWhere_in_loop (values : list QString) (n : nat) (q : CollectionQuery) :
  fold_left AddWhere_in_step values (repeat "?" n, q)
  = (repeat "?" (n + List.length values),
     appended [] (map (fun s => QVariant_String (Some s)) values) q).
Proof.
  revert n q. induction values as [|v values IH]; intros n q.
  - simpl. now rewrite Nat.add_0_r, appended_nil.
  - cbn [fold_left].
    change (AddWhere_in_step (repeat "?" n, q) v)
      with ((repeat "?" n ++ ["?"])%list,
            push_bound (QVariant_String (Some v)) q).
    rewrite repeat_snoc, IH, push_bound_appended, appended_appended.
    simpl. now rewrite Nat.add_succ_r.
Qed.

Section QueryProperties.

Variable ParseSearchRating : QString -> Float32.float.
Variable float_toString : Float32.float -> QString.


(** [AddWhere] with the operator IN. *)
Lemma AddWhere_in (column : QString) (value : QVariant) (op : QString)
    (q : CollectionQuery) :
  equal_ci op "IN" = true ->
  AddWhere float_toString column value op q
  = appended
      [column ++ " IN ("
       ++ String.concat "," (repeat "?" (List.length (toStringList value))) ++ ")"]
      (map (fun s => QVariant_String (Some s)) (toStringList value)) q.
Proof.
  intros Hop. unfold AddWhere. rewrite Hop.
  change (fold_left AddWhere_in_step (toStringList value) ([], q))
    with (fold_left AddWhere_in_step (toStringList value) (repeat "?" 0, q)).
  rewrite AddWhere_in_loop. simpl Nat.add.
  rewrite arg_column_in by apply concat_placeholders_no_marker.
  rewrite push_where_appended, appended_appended, app_nil_r. reflexivity.
Qed.

(** [AddWhere] with another operator and a value that is not an [int]. *)
Lemma AddWhere_bound (column : QString) (value : QVariant) (op : QString)
    (q : CollectionQuery) :
  equal_ci op "IN" = false ->
  (forall i, value <> QVariant_Int i) ->
  AddWhere float_toString column value op q
  = appended [column ++ " " ++ op ++ " ?"]
      [match value with
       | QVariant_String None => QVariant_String (Some EmptyString)
       | _ => value
       end] q.
Proof.
  intros Hop Hint. unfold AddWhere. rewrite Hop.
  destruct value as [| i | i | f | [s|] | l];
    try (now rewrite push_where_appended, push_bound_appended, appended_appended).
  now contradiction (Hint i).
Qed.

(** [AddWhere] with another operator and an [int]. *)
Lemma AddWhere_int (column op : QString) (i : Z) (q : CollectionQuery) :
  equal_ci op "IN" = false ->
  AddWhere float_toString column (QVariant_Int i) op q
  = appended [column ++ " " ++ op ++ " " ++ number i] [] q.
Proof.
  intros Hop. unfold AddWhere. rewrite Hop.
  rewrite arg_column_op_literal, push_where_appended. reflexivity.
Qed.

(** C6, as the code has it.  With an operator other than IN and a value
    whose variant type is [int], [AddWhere] appends the clause made of the
    column, the operator and the decimal text of the value, which holds no
    [?], and binds no value.  A 64-bit integer value is not written into
    the clause: the clause ends with [?] and the value is bound. *)
Theorem AddWhere_integer_inline (column op : QString) (v : Z)
    (q : CollectionQuery) :
  equal_ci op "IN" = false ->
  AddWhere float_toString column (QVariant_Int v) op q
  = appended [column ++ " " ++ op ++ " " ++ number v] [] q
  /\ bound_values_ (AddWhere float_toString column (QVariant_Int v) op q)
     = bound_values_ q
  /\ count "?" (number v) = O
  /\ AddWhere float_toString column (QVariant_LongLong v) op q
     = appended [column ++ " " ++ op ++ " ?"] [QVariant_LongLong v] q.
Proof.
  intros Hop. rewrite AddWhere_int by exact Hop.
  split; [reflexivity | split; [| split]].
  - unfold appended. simpl. apply app_nil_r.
  - apply count_number. reflexivity.
  - rewrite AddWhere_bound; [reflexivity | exact Hop | discriminate].
Qed.


(** The other operators of [AddWhereRating]. *)
Lemma AddWhereRating_wheres (value : QVariant) (op : QString)
    (q : CollectionQuery) :
  exists cs vs,
    AddWhereRating ParseSearchRating float_toString value op q = appended cs vs q
    /\ placeholders cs = List.length vs.
Proof.
  unfold AddWhereRating.
  repeat match goal with
         | |- context [if ?b then _ else _] => destruct b
         end;
    rewrite ?AddWhere_bound by (reflexivity || discriminate);
    rewrite ?push_where_appended, ?push_bound_appended, ?appended_appended;
    eexists; eexists; (split; [reflexivity | reflexivity]).
Qed.

(** Every operation appends to the two lists, and as many values as it
    appends [?]. *)
Lemma apply_appends (o : Operation) (q : CollectionQuery) :
  Operation_wf o ->
  exists cs vs,
    apply ParseSearchRating float_toString q o = appended cs vs q /\ placeholders cs = List.length vs.
Proof.
  intros Hwf. destruct o as [column value op | value | value op | compilation].
  - destruct Hwf as [Hcol Hop]. cbn [apply].
    destruct (equal_ci op "IN") eqn:Hin.
    + rewrite AddWhere_in by exact Hin.
      eexists; eexists; split; [reflexivity |].
      rewrite placeholders_one, !count_app, concat_placeholders_count, Hcol.
      rewrite length_map. simpl. lia.
    + destruct (match value with QVariant_Int _ => true | _ => false end) eqn:Hint.
      * destruct value as [| i | | | |]; try discriminate.
        rewrite AddWhere_int by exact Hin.
        eexists; eexists; split; [reflexivity |].
        rewrite placeholders_one, !count_app, Hcol, Hop.
        rewrite count_number by reflexivity. simpl. lia.
      * rewrite AddWhere_bound; [| exact Hin | intros i ->; discriminate].
        eexists; eexists; split; [reflexivity |].
        rewrite placeholders_one, !count_app, Hcol, Hop. simpl. lia.
  - cbn [apply]. unfold AddWhereArtist.
    rewrite push_where_appended, !push_bound_appended, !appended_appended.
    eexists; eexists; split; reflexivity.
  - apply AddWhereRating_wheres.
  - cbn [apply]. unfold AddCompilationRequirement.
    rewrite push_where_appended.
    eexists; eexists; split; [reflexivity |].
    now destruct compilation.
Qed.

Lemma run_appends (ops : list Operation) (q : CollectionQuery) :
  Forall Operation_wf ops ->
  exists cs vs,
    run ParseSearchRating float_toString ops q = appended cs vs q /\ placeholders cs = List.length vs.
Proof.
  intros Hwf. revert q.
  induction Hwf as [|o ops Ho _ IH]; intros q.
  - exists [], []. split; [now rewrite appended_nil | reflexivity].
  - unfold run. simpl fold_left.
    destruct (apply_appends o q Ho) as (cs1 & vs1 & -> & H1).
    destruct (IH (appended cs1 vs1 q)) as (cs2 & vs2 & Hrun & H2).
    unfold run in Hrun. rewrite Hrun, appended_appended.
    exists (cs1 ++ cs2)%list, (vs1 ++ vs2)%list.
    split; [reflexivity |].
    rewrite placeholders_app, length_app. lia.
Qed.

(** The constructor leaves as many [?] as bound values. *)
Lemma CollectionQuery_new_placeholders (now : Z) (songs_table : QString)
    (filter_options : CollectionFilterOptions) :
  let q := CollectionQuery_new now songs_table filter_options in
  placeholders (where_clauses_ q) = List.length (bound_values_ q).
Proof.
  unfold CollectionQuery_new.
  destruct filter_options as [age mode].
  cbn [max_age filter_mode].
  destruct (negb (age =? -1)); destruct mode; reflexivity.
Qed.

(** C4, for columns and operators without [?].  After the constructor and
    any sequence of operations whose column and operator texts hold no
    [?], the clauses hold as many [?] as there are bound values; and every
    such operation appends clauses and values at the end of the two lists,
    as many values as it appends [?], so that the values keep the order of
    the [?] they belong to. *)
Theorem placeholders_match_bound_values
    (now : Z) (songs_table : QString) (filter_options : CollectionFilterOptions)
    (ops : list Operation) :
  Forall Operation_wf ops ->
  (let q := run ParseSearchRating float_toString ops (CollectionQuery_new now songs_table filter_options) in
   placeholders (where_clauses_ q) = List.length (bound_values_ q))
  /\ (forall o q, Operation_wf o ->
        exists cs vs,
          where_clauses_ (apply ParseSearchRating float_toString q o) = (where_clauses_ q ++ cs)%list
          /\ bound_values_ (apply ParseSearchRating float_toString q o) = (bound_values_ q ++ vs)%list
          /\ placeholders cs = List.length vs).
Proof.
  intros Hwf. split.
  - destruct (run_appends ops
                (CollectionQuery_new now songs_table filter_options) Hwf)
      as (cs & vs & Hrun & Hcount).
    cbv zeta. rewrite Hrun. unfold appended. simpl.
    rewrite placeholders_app, length_app, Hcount.
    now rewrite CollectionQuery_new_placeholders.
  - intros o q Ho.
    destruct (apply_appends o q Ho) as (cs & vs & Heq & Hcount).
    exists cs, vs. rewrite Heq. repeat split. exact Hcount.
Qed.

End QueryProperties.

Lemma placeholders_match_bound_values_witness :
  let q := run Sample.ParseSearchRating Sample.float_toString
             Sample.ops Sample.fresh_query in
  placeholders (where_clauses_ q) = List.length (bound_values_ q).
Proof.
  apply (placeholders_match_bound_values
           Sample.ParseSearchRating Sample.float_toString
           1700000000 "songs" Sample.last_week_untagged Sample.ops).
  repeat constructor.
Defined.

(** C4, as the claim has it, fails for a column text and for an operator
    text with a [?]: the clause holds two [?] and one value is bound. *)
Lemma AddWhere_column_with_placeholder :
  let q0 := CollectionQuery_new 1700000000 "songs" Sample.no_options in
  let q1 := AddWhere Sample.float_toString "a?" (QVariant_String (Some "x")) "=" q0 in
  let q2 := AddWhere Sample.float_toString "a" (QVariant_String (Some "x")) "=?" q0 in
  where_clauses_ q1 = ["a? = ?"]
  /\ bound_values_ q1 = [QVariant_String (Some "x")]
  /\ placeholders (where_clauses_ q1) <> List.length (bound_values_ q1)
  /\ where_clauses_ q2 = ["a =? ?"]
  /\ bound_values_ q2 = [QVariant_String (Some "x")]
  /\ placeholders (where_clauses_ q2) <> List.length (bound_values_ q2).
Proof. repeat split; vm_compute; discriminate. Qed.

Lemma AddWhere_integer_inline_witness :
  AddWhere Sample.float_toString "year" (QVariant_Int 2020) "=" Sample.fresh_query
  = appended ["year = 2020"] [] Sample.fresh_query
  /\ bound_values_
       (AddWhere Sample.float_toString "year" (QVariant_Int 2020) "="
          Sample.fresh_query)
     = bound_values_ Sample.fresh_query
  /\ count "?" (number 2020) = O
  /\ AddWhere Sample.float_toString "year" (QVariant_LongLong 2020) "="
       Sample.fresh_query
     = appended ["year = ?"] [QVariant_LongLong 2020] Sample.fresh_query.
Proof.
  apply (AddWhere_integer_inline Sample.float_toString "year" "=" 2020
           Sample.fresh_query).
  reflexivity.
Defined.

(** C6, as the claim has it, fails for an integer of 64 bits: the value
    2020 of type [qint64] is bound, and the clause holds [?] in its
    place. *)
Lemma AddWhere_longlong_bound :
  let q := AddWhere Sample.float_toString "year" (QVariant_LongLong 2020) "="
             (CollectionQuery_new 1700000000 "songs" Sample.no_options) in
  where_clauses_ q = ["year = ?"]
  /\ bound_values_ q = [QVariant_LongLong 2020]
  /\ where_clauses_ q <> ["year = 2020"]
  /\ bound_values_ q <> [].
Proof. repeat split; vm_compute; discriminate. Qed.

Example Exec_sql_in_empty_list :
  Exec_sql
    (AddWhere Sample.float_toString "track" (QVariant_StringList []) "in"
       (CollectionQuery_new 1700000000 "songs" Sample.no_options))
  = "SELECT  FROM songs  WHERE track IN () AND unavailable = 0".
Proof. reflexivity. Qed.


(** The tolerance is the float nearest to 0.001, and the two values bound
    for the rating 4.0 are the floats nearest to 4.001 and to 3.999. *)
Example tolerance_nearest : Float32.within 34 tolerance 1 1000 = true.
Proof. reflexivity. Qed.

Example four_plus_tolerance :
  Float32.add Sample.four tolerance = S754_finite false 8390705 (-21)
  /\ Float32.within 22 (Float32.add Sample.four tolerance) 4001 1000 = true.
Proof. split; vm_compute; reflexivity. Qed.

Example four_minus_tolerance :
  Float32.sub Sample.four tolerance = S754_finite false 16773022 (-22)
  /\ Float32.within 23 (Float32.sub Sample.four tolerance) 3999 1000 = true.
Proof. split; vm_compute; reflexivity. Qed.

Example run_sample :
  let q := run Sample.ParseSearchRating Sample.float_toString
             Sample.ops Sample.fresh_query in
  where_clauses_ q
  = ["ctime > ?"; "(artist = '' OR album = '' OR title ='')";
     "artist = ?"; "track IN (?,?,?)"; "year = 2020"; "album <> ?";
     "((artist = ? AND albumartist = '') OR albumartist = ?)";
     "rating < ?"; "rating > ?"; "(rating<? OR rating>?)";
     "+compilation_effective = 1"]
  /\ List.length (bound_values_ q) = 12%nat.
Proof. split; vm_compute; reflexivity. Qed.

(** ** The statement of Exec *)

Lemma prefix_nil (s : QString) : String.prefix EmptyString s = true.
Proof. destruct s; reflexivity. Qed.

Lemma prefix_cons (b : ascii) (bs : QString) (c : ascii) (s : QString) :
  String.prefix (String b bs) (String c s)
  = Ascii.eqb b c && String.prefix bs s.
Proof.
  simpl. destruct (ascii_dec b c) as [-> | Hne].
  - now rewrite Ascii.eqb_refl.
  - apply Ascii.eqb_neq in Hne. now rewrite Hne.
Qed.

Lemma prefix_app (before u t : QString) :
  String.prefix before u = true -> String.prefix before (u ++ t) = true.
Proof.
  revert before. induction u as [|c u IH]; intros [|b bs] H;
    try apply prefix_nil; try discriminate.
  change (String c u ++ t) with (String c (u ++ t)).
  rewrite prefix_cons in *. apply andb_true_iff in H as [-> H].
  now apply IH.
Qed.

Lemma prefix_length (before u : QString) :
  String.prefix before u = true -> (String.length before <= String.length u)%nat.
Proof.
  revert before. induction u as [|c u IH]; intros [|b bs] H;
    simpl; try lia; try discriminate.
  rewrite prefix_cons in H. apply andb_true_iff in H as [_ H].
  apply IH in H. lia.
Qed.

(** An occurrence of [before] cannot reach into a text that starts with a
    character foreign to [before]. *)
Lemma prefix_app_inv (before u : QString) (t0 : ascii) (t : QString) :
  contains_char t0 before = false ->
  String.prefix before (u ++ String t0 t) = true ->
  String.prefix before u = true.
Proof.
  revert before. induction u as [|c u IH]; intros [|b bs] Hno H;
    try apply prefix_nil.
  - change (EmptyString ++ String t0 t) with (String t0 t) in H.
    rewrite prefix_cons in H. simpl in Hno.
    apply orb_false_iff in Hno as [Hb _].
    now rewrite Hb in H.
  - change (String c u ++ String t0 t) with (String c (u ++ String t0 t)) in H.
    rewrite prefix_cons in *. apply andb_true_iff in H as [-> H].
    simpl in Hno. apply orb_false_iff in Hno as [_ Hno].
    now apply IH.
Qed.

Lemma replace_no_first (b : ascii) (bs after t : QString) :
  count b t = O -> replace_from O (String b bs) after t = t.
Proof.
  induction t as [|c t IH]; intros Hc; [reflexivity |].
  simpl in Hc. cbn [replace_from]. rewrite prefix_cons.
  destruct (Ascii.eqb_spec c b) as [-> | Hne]; [discriminate |].
  apply not_eq_sym, Ascii.eqb_neq in Hne. rewrite Hne. simpl.
  now rewrite IH.
Qed.

(** A text appended to [s] comes out of [replace] as it is, when it starts
    with a character foreign to [before] and holds no occurrence of it. *)
Lemma replace_from_app (before after : QString) (t0 : ascii) (t : QString) :
  contains_char t0 before = false ->
  replace_from O before after (String t0 t) = String t0 t ->
  forall (s : QString) (skip : nat),
    (skip <= String.length s)%nat ->
    replace_from skip before after (s ++ String t0 t)
    = replace_from skip before after s ++ String t0 t.
Proof.
  intros Hno Ht. induction s as [|c s IH]; intros skip Hskip.
  - simpl in Hskip. replace skip with O by lia. exact Ht.
  - change (String c s ++ String t0 t) with (String c (s ++ String t0 t)).
    simpl in Hskip. destruct skip as [|k].
    + cbn [replace_from].
      change (String c (s ++ String t0 t)) with (String c s ++ String t0 t).
      destruct (String.prefix before (String c s ++ String t0 t)) eqn:Hp.
      * pose proof (prefix_app_inv _ _ _ _ Hno Hp) as Hp'.
        rewrite Hp'. pose proof (prefix_length _ _ Hp') as Hlen.
        simpl in Hlen. rewrite IH by lia. now rewrite string_app_assoc.
      * destruct (String.prefix before (String c s)) eqn:Hp'.
        { apply prefix_app with (t := String t0 t) in Hp'. congruence. }
        now rewrite IH by lia.
    + cbn [replace_from]. apply IH. lia.
Qed.

(** C8, as the code has it.  The statement of [Exec] is the statement of
    the same query without a row limit, followed by the clause [LIMIT n]
    if and only if the row limit [n] is not -1. *)
Theorem Exec_limit_clause (q : CollectionQuery) :
  Exec_sql q
  = Exec_sql (SetLimit (-1) q)
    ++ (if limit_ q =? -1 then EmptyString else " LIMIT " ++ number (limit_ q)).
Proof.
  unfold Exec_sql, Exec_sql_limit.
  change (songs_table_ (SetLimit (-1) q)) with (songs_table_ q).
  change (limit_ (SetLimit (-1) q)) with (-1).
  change (Exec_sql_order (SetLimit (-1) q)) with (Exec_sql_order q).
  change (-1 =? -1) with true. cbn [negb].
  destruct (limit_ q =? -1); cbn [negb].
  - now rewrite string_app_nil_r.
  - unfold replace.
    change (" LIMIT " ++ number (limit_ q))
      with (String " " ("LIMIT " ++ number (limit_ q))).
    apply replace_from_app; [reflexivity | | simpl; lia].
    apply replace_no_first.
    change (String " " ("LIMIT " ++ number (limit_ q)))
      with (" LIMIT " ++ number (limit_ q)).
    rewrite count_app, count_number by reflexivity. reflexivity.
Qed.

(** C8, as the claim has it, fails at the row limit -2: the limit is
    negative and the statement ends with the clause [LIMIT -2]. *)
Lemma Exec_negative_limit_emitted :
  limit_ Sample.limit_minus_two < 0
  /\ Exec_sql Sample.limit_minus_two
     = "SELECT ROWID FROM songs  WHERE unavailable = 0 LIMIT -2"
  /\ Exec_sql Sample.limit_minus_two
     <> Exec_sql (SetLimit (-1) Sample.limit_minus_two).
Proof.
  split; [reflexivity | split; [reflexivity |]].
  vm_compute. discriminate.
Qed.

(** * Further properties *)

(** ** RemoveSqlOperator *)

Lemma rxOp_match_cases (token : QString) :
  rxOp_match token = None
  \/ exists captured rest,
       rxOp_match token = Some (captured, rest)
       /\ token = captured ++ rest
       /\ In captured ["="; "<"; "<>"; "<="; ">"; ">="; "!="].
Proof.
  destruct token as [|c rest]; [now left |].
  unfold rxOp_match.
  destruct (Ascii.eqb_spec c "=") as [-> | _].
  { right. exists "=", rest. repeat split. in_literals. }
  destruct (Ascii.eqb_spec c "<") as [-> | _].
  { right. destruct rest as [|d rest'].
    - exists "<", EmptyString. repeat split. in_literals.
    - destruct (Ascii.eqb_spec d ">") as [-> | _].
      + exists "<>", rest'. repeat split. in_literals.
      + destruct (Ascii.eqb_spec d "=") as [-> | _].
        * exists "<=", rest'. repeat split. in_literals.
        * exists "<", (String d rest'). repeat split. in_literals. }
  destruct (Ascii.eqb_spec c ">") as [-> | _].
  { right. destruct rest as [|d rest'].
    - exists ">", EmptyString. repeat split. in_literals.
    - destruct (Ascii.eqb_spec d "=") as [-> | _].
      + exists ">=", rest'. repeat split. in_literals.
      + exists ">", (String d rest'). repeat split. in_literals. }
  destruct (Ascii.eqb_spec c "!") as [-> | _]; [| now left].
  destruct rest as [|d rest']; [now left |].
  destruct (Ascii.eqb_spec d "=") as [-> | _]; [| now left].
  right. exists "!=", rest'. repeat split. in_literals.
Qed.

(** X1.  The operator that [RemoveSqlOperator] returns is one of [=], [<],
    [<>], [<=], [>] and [>=], whatever the token; [!=] is never
    returned. *)
Theorem RemoveSqlOperator_operator (token : QString) :
  In (fst (RemoveSqlOperator token)) sql_operators
  /\ fst (RemoveSqlOperator token) <> "!=".
Proof.
  assert (H : In (fst (RemoveSqlOperator token)) sql_operators).
  { unfold RemoveSqlOperator, sql_operators.
    destruct (rxOp_match_cases token) as [-> | (captured & rest & -> & _ & Hin)].
    - in_literals.
    - cbn [fst]. simpl in Hin.
      repeat (destruct Hin as [<- | Hin]; [in_literals |]).
      destruct Hin. }
  split; [exact H |].
  intros Heq. rewrite Heq in H. unfold sql_operators in H. simpl in H.
  repeat (destruct H as [H | H]; [discriminate H |]). exact H.
Qed.

(** X2.  [RemoveSqlOperator] takes off the token the longest of the texts
    [=], [<], [<>], [<=], [>], [>=] and [!=] that the token starts with,
    and nothing when it starts with none of them; the token left is the
    rest of the token.  The operator returned is the text taken, but [=]
    when nothing is taken and [<>] when [!=] is taken. *)
Theorem RemoveSqlOperator_prefix (token : QString) :
  exists taken,
    token = taken ++ snd (RemoveSqlOperator token)
    /\ In taken [EmptyString; "="; "<"; "<>"; "<="; ">"; ">="; "!="]
    /\ (forall o, In o ["="; "<"; "<>"; "<="; ">"; ">="; "!="] ->
                  String.prefix o token = true ->
                  (String.length o <= String.length taken)%nat)
    /\ fst (RemoveSqlOperator token)
       = (if isEmpty taken then "="
          else if String.eqb taken "!=" then "<>" else taken).
Proof.
  assert (Hdone : forall taken,
            (token = taken ++ snd (RemoveSqlOperator token)
             /\ In taken [EmptyString; "="; "<"; "<>"; "<="; ">"; ">="; "!="]
             /\ fst (RemoveSqlOperator token)
                = (if isEmpty taken then "="
                   else if String.eqb taken "!=" then "<>" else taken))
            -> (forall o, In o ["="; "<"; "<>"; "<="; ">"; ">="; "!="] ->
                  String.prefix o token = true ->
                  (String.length o <= String.length taken)%nat)
            -> exists taken,
                 token = taken ++ snd (RemoveSqlOperator token)
                 /\ In taken [EmptyString; "="; "<"; "<>"; "<="; ">"; ">="; "!="]
                 /\ (forall o, In o ["="; "<"; "<>"; "<="; ">"; ">="; "!="] ->
                               String.prefix o token = true ->
                               (String.length o <= String.length taken)%nat)
                 /\ fst (RemoveSqlOperator token)
                    = (if isEmpty taken then "="
                       else if String.eqb taken "!=" then "<>" else taken)).
  { intros taken (H1 & H2 & H3) H4. exists taken. auto. }
  unfold RemoveSqlOperator, rxOp_match in *.
  destruct token as [|c rest].
  { apply (Hdone EmptyString); [repeat split; in_literals |].
    intros o Hin Hp. simpl in Hin.
    repeat (destruct Hin as [<- | Hin]; [discriminate Hp |]). destruct Hin. }
  destruct (Ascii.eqb_spec c "=") as [-> | Heq].
  { apply (Hdone "="); [repeat split; in_literals |].
    intros o Hin Hp. simpl in Hin.
    repeat (destruct Hin as [<- | Hin];
            [first [solve [simpl; lia] | simpl in Hp; discriminate Hp] |]).
    destruct Hin. }
  destruct (Ascii.eqb_spec c "<") as [-> | Hlt].
  { destruct rest as [|d rest'].
    - apply (Hdone "<"); [repeat split; in_literals |].
      intros o Hin Hp. simpl in Hin.
      repeat (destruct Hin as [<- | Hin];
              [first [solve [simpl; lia] | simpl in Hp; discriminate Hp] |]).
      destruct Hin.
    - destruct (Ascii.eqb_spec d ">") as [-> | Hgt].
      { apply (Hdone "<>"); [repeat split; in_literals |].
        intros o Hin Hp. simpl in Hin.
        repeat (destruct Hin as [<- | Hin]; [solve [simpl; lia] |]).
        destruct Hin. }
      destruct (Ascii.eqb_spec d "=") as [-> | Heq'].
      { apply (Hdone "<="); [repeat split; in_literals |].
        intros o Hin Hp. simpl in Hin.
        repeat (destruct Hin as [<- | Hin]; [solve [simpl; lia] |]).
        destruct Hin. }
      apply (Hdone "<"); [repeat split; in_literals |].
      intros o Hin Hp. simpl in Hin.
      repeat (destruct Hin as [<- | Hin];
              [first [solve [simpl; lia]
                     | exfalso;
                       rewrite !prefix_cons in Hp;
                       repeat (apply andb_true_iff in Hp;
                               let Hc := fresh "Hc" in
                               destruct Hp as [Hc Hp];
                               apply Ascii.eqb_eq in Hc);
                       congruence] |]).
      destruct Hin. }
  destruct (Ascii.eqb_spec c ">") as [-> | Hgt].
  { destruct rest as [|d rest'].
    - apply (Hdone ">"); [repeat split; in_literals |].
      intros o Hin Hp. simpl in Hin.
      repeat (destruct Hin as [<- | Hin];
              [first [solve [simpl; lia] | simpl in Hp; discriminate Hp] |]).
      destruct Hin.
    - destruct (Ascii.eqb_spec d "=") as [-> | Heq'].
      { apply (Hdone ">="); [repeat split; in_literals |].
        intros o Hin Hp. simpl in Hin.
        repeat (destruct Hin as [<- | Hin]; [solve [simpl; lia] |]).
        destruct Hin. }
      apply (Hdone ">"); [repeat split; in_literals |].
      intros o Hin Hp. simpl in Hin.
      repeat (destruct Hin as [<- | Hin];
              [first [solve [simpl; lia]
                     | exfalso;
                       rewrite !prefix_cons in Hp;
                       repeat (apply andb_true_iff in Hp;
                               let Hc := fresh "Hc" in
                               destruct Hp as [Hc Hp];
                               apply Ascii.eqb_eq in Hc);
                       congruence] |]).
      destruct Hin. }
  assert (Hnone : forall o, In o ["="; "<"; "<>"; "<="; ">"; ">="] ->
                  String.prefix o (String c rest) = true -> False).
  { intros o Hin Hp. simpl in Hin.
    repeat (destruct Hin as [<- | Hin];
            [rewrite prefix_cons in Hp; apply andb_true_iff in Hp;
             destruct Hp as [Hc _]; apply Ascii.eqb_eq in Hc; congruence |]).
    destruct Hin. }
  destruct (Ascii.eqb_spec c "!") as [-> | Hbang].
  { destruct rest as [|d rest'].
    - apply (Hdone EmptyString); [repeat split; in_literals |].
      intros o Hin Hp. simpl in Hin.
      repeat (destruct Hin as [<- | Hin]; [simpl in Hp; discriminate Hp |]).
      destruct Hin.
    - destruct (Ascii.eqb_spec d "=") as [-> | Heq'].
      { apply (Hdone "!="); [repeat split; in_literals |].
        intros o Hin Hp. simpl in Hin.
        repeat (destruct Hin as [<- | Hin]; [solve [simpl; lia] |]).
        destruct Hin. }
      apply (Hdone EmptyString); [repeat split; in_literals |].
      intros o Hin Hp. exfalso. simpl in Hin.
      repeat (destruct Hin as [<- | Hin];
              [first [solve [apply (Hnone _ ltac:(in_literals) Hp)]
                     | rewrite !prefix_cons in Hp;
                       repeat (apply andb_true_iff in Hp;
                               let Hc := fresh "Hc" in
                               destruct Hp as [Hc Hp];
                               apply Ascii.eqb_eq in Hc);
                       congruence] |]).
      destruct Hin. }
  apply (Hdone EmptyString); [repeat split; in_literals |].
  intros o Hin Hp. exfalso. simpl in Hin.
  repeat (destruct Hin as [<- | Hin];
          [rewrite prefix_cons in Hp; apply andb_true_iff in Hp;
           destruct Hp as [Hc _]; apply Ascii.eqb_eq in Hc; congruence |]).
  destruct Hin.
Qed.

(** X3.  The longest operator is taken: after [<] the token left does not
    start with [>] or [=], and after [>] it does not start with [=]. *)
Theorem RemoveSqlOperator_longest (token : QString) :
  let op := fst (RemoveSqlOperator token) in
  let rest := snd (RemoveSqlOperator token) in
  (op = "<" -> String.prefix ">" rest = false /\ String.prefix "=" rest = false)
  /\ (op = ">" -> String.prefix "=" rest = false).
Proof.
  cbv zeta. unfold RemoveSqlOperator.
  destruct token as [|c rest]; [split; discriminate |].
  unfold rxOp_match.
  destruct (Ascii.eqb_spec c "=") as [-> | _]; [split; discriminate |].
  destruct (Ascii.eqb_spec c "<") as [-> | Hlt].
  { destruct rest as [|d rest'].
    - split; [intros _; split; reflexivity | discriminate].
    - destruct (Ascii.eqb_spec d ">") as [-> | Hgt]; [split; discriminate |].
      destruct (Ascii.eqb_spec d "=") as [-> | Heq]; [split; discriminate |].
      cbn [orb fst snd].
      split; [intros _ | discriminate].
      rewrite !prefix_cons.
      apply not_eq_sym, Ascii.eqb_neq in Hgt.
      apply not_eq_sym, Ascii.eqb_neq in Heq.
      now rewrite Hgt, Heq. }
  destruct (Ascii.eqb_spec c ">") as [-> | Hgt].
  { destruct rest as [|d rest'].
    - split; [discriminate | reflexivity].
    - destruct (Ascii.eqb_spec d "=") as [-> | Heq]; [split; discriminate |].
      cbn [fst snd].
      split; [discriminate | intros _].
      rewrite prefix_cons.
      apply not_eq_sym, Ascii.eqb_neq in Heq. now rewrite Heq. }
  destruct (Ascii.eqb_spec c "!") as [-> | Hbang].
  { destruct rest as [|d rest']; [split; discriminate |].
    destruct (Ascii.eqb_spec d "="); split; discriminate. }
  split; discriminate.
Qed.

Example RemoveSqlOperator_examples :
  RemoveSqlOperator ">=3" = (">=", "3")
  /\ RemoveSqlOperator "!=3" = ("<>", "3")
  /\ RemoveSqlOperator "<>" = ("<>", EmptyString)
  /\ RemoveSqlOperator "3" = ("=", "3")
  /\ RemoveSqlOperator "!3" = ("=", "!3")
  /\ RemoveSqlOperator "==3" = ("=", "=3")
  /\ RemoveSqlOperator EmptyString = ("=", EmptyString).
Proof. repeat split. Qed.

(** X4.  With an operator taken by [RemoveSqlOperator] from any token and a
    column text without [?], [AddWhere] never takes the IN path: it appends
    one clause and at most one bound value, as many values as the clause
    holds [?]. *)
Theorem AddWhere_after_RemoveSqlOperator
    (float_toString : Float32.float -> QString)
    (column : QString) (value : QVariant) (token : QString)
    (q : CollectionQuery) :
  count "?" column = O ->
  let op := fst (RemoveSqlOperator token) in
  equal_ci op "IN" = false
  /\ exists clause vs,
       AddWhere float_toString column value op q = appended [clause] vs q
       /\ (List.length vs <= 1)%nat
       /\ count "?" clause = List.length vs.
Proof.
  intros Hcol op.
  assert (Hop : equal_ci op "IN" = false /\ count "?" op = O).
  { subst op. unfold RemoveSqlOperator.
    destruct (rxOp_match_cases token) as [-> | (captured & rest & -> & _ & Hin)].
    - split; reflexivity.
    - cbn [fst]. simpl in Hin.
      repeat (destruct Hin as [<- | Hin]; [split; reflexivity |]).
      destruct Hin. }
  destruct Hop as [Hin Hcount]. split; [exact Hin |].
  destruct (match value with QVariant_Int _ => true | _ => false end) eqn:Hint.
  - destruct value as [| i | | | |]; try discriminate.
    rewrite AddWhere_int by exact Hin.
    eexists; exists []; split; [reflexivity | split; [simpl; lia |]].
    rewrite !count_app, Hcol, Hcount, count_number by reflexivity. reflexivity.
  - rewrite AddWhere_bound; [| exact Hin | intros i ->; discriminate].
    eexists; eexists; split; [reflexivity | split; [simpl; lia |]].
    rewrite !count_app, Hcol, Hcount. reflexivity.
Qed.

Lemma AddWhere_after_RemoveSqlOperator_witness :
  equal_ci (fst (RemoveSqlOperator "!=2020")) "IN" = false
  /\ exists clause vs,
       AddWhere Sample.float_toString "year"
         (QVariant_String (Some (snd (RemoveSqlOperator "!=2020"))))
         (fst (RemoveSqlOperator "!=2020")) Sample.fresh_query
       = appended [clause] vs Sample.fresh_query
       /\ (List.length vs <= 1)%nat
       /\ count "?" clause = List.length vs.
Proof.
  apply (AddWhere_after_RemoveSqlOperator Sample.float_toString "year"
           (QVariant_String (Some (snd (RemoveSqlOperator "!=2020"))))
           "!=2020" Sample.fresh_query).
  reflexivity.
Defined.

(** ** Characters of tokens *)

Lemma all_chars_app (P : ascii -> bool) (a b : QString) :
  all_chars P (a ++ b) = all_chars P a && all_chars P b.
Proof.
  induction a as [|c a IH]; simpl; [reflexivity |].
  now rewrite IH, andb_assoc.
Qed.

Lemma all_chars_remove (P : ascii -> bool) (ch : ascii) (s : QString) :
  all_chars P s = true -> all_chars P (remove ch s) = true.
Proof.
  induction s as [|c s IH]; simpl; [reflexivity |].
  intros [Hc Hs]%andb_true_iff.
  destruct (Ascii.eqb c ch); simpl; [auto | now rewrite Hc, IH].
Qed.

Lemma all_chars_ltrim (P : ascii -> bool) (s : QString) :
  all_chars P s = true -> all_chars P (ltrim s) = true.
Proof.
  induction s as [|c s IH]; simpl; [reflexivity |].
  intros [Hc Hs]%andb_true_iff.
  destruct (isSpace c); simpl; [auto | now rewrite Hc, Hs].
Qed.

Lemma all_chars_rtrim (P : ascii -> bool) (s : QString) :
  all_chars P s = true -> all_chars P (rtrim s) = true.
Proof.
  induction s as [|c s IH]; simpl; [reflexivity |].
  intros [Hc Hs]%andb_true_iff.
  destruct (isSpace c && isEmpty (rtrim s)); simpl; [reflexivity |].
  now rewrite Hc, IH.
Qed.

Lemma all_chars_trimmed (P : ascii -> bool) (s : QString) :
  all_chars P s = true -> all_chars P (trimmed s) = true.
Proof. intros H. unfold trimmed. now apply all_chars_rtrim, all_chars_ltrim. Qed.

Lemma contains_char_all_chars (ch : ascii) (s : QString) :
  contains_char ch s = false <-> all_chars (not_char ch) s = true.
Proof.
  unfold not_char. induction s as [|c s IH]; simpl; [tauto |].
  rewrite orb_false_iff, andb_true_iff, negb_true_iff, IH. tauto.
Qed.

Lemma contains_char_remove (ch : ascii) (s : QString) :
  contains_char ch (remove ch s) = false.
Proof.
  induction s as [|c s IH]; simpl; [reflexivity |].
  destruct (Ascii.eqb c ch) eqn:Hc; simpl; [exact IH | now rewrite Hc].
Qed.

(** The tokens of [split_ws] are non-empty, and every character of a token
    is a character of the text outside [\s]. *)
Lemma split_ws_tokens (Q : ascii -> bool) (s : QString) :
  all_chars (fun c => regex_space c || Q c) s = true ->
  Forall (fun t => isEmpty t = false /\ all_chars Q t = true) (split_ws s).
Proof.
  induction s as [|c s IH]; intros Hs; [constructor |].
  simpl in Hs. apply andb_true_iff in Hs as [Hc Hs].
  specialize (IH Hs). cbn [split_ws].
  destruct (regex_space c) eqn:Hsp; [exact IH |].
  simpl in Hc.
  destruct s as [|c' s'].
  - constructor; [| constructor]. simpl. now rewrite Hc.
  - destruct (regex_space c').
    + constructor; [| exact IH]. simpl. now rewrite Hc.
    + destruct (split_ws (String c' s')) as [|h t].
      * constructor; [| constructor]. simpl. now rewrite Hc.
      * inversion IH as [|? ? [Hh1 Hh2] Ht]; subst.
        constructor; [| exact Ht]. simpl. now rewrite Hc, Hh2.
Qed.

Lemma split_ws_words (s : QString) : Forall word (split_ws s).
Proof.
  apply (split_ws_tokens (fun c => negb (regex_space c))).
  induction s as [|c s IH]; simpl; [reflexivity |].
  rewrite IH. now destruct (regex_space c).
Qed.

Lemma split_ws_spaces (s : QString) :
  all_chars regex_space s = true -> split_ws s = [].
Proof.
  induction s as [|c s IH]; [reflexivity |].
  simpl. intros [Hc Hs]%andb_true_iff. rewrite Hc. now apply IH.
Qed.

Lemma split_ws_word (t : QString) : word t -> split_ws t = [t].
Proof.
  intros [Hne Hall]. induction t as [|c t IH]; [discriminate |].
  simpl in Hall. apply andb_true_iff in Hall as [Hc Ht].
  apply negb_true_iff in Hc. cbn [split_ws]. rewrite Hc.
  destruct t as [|c' t']; [reflexivity |].
  pose proof Ht as Ht'. simpl in Ht'. apply andb_true_iff in Ht' as [Hc' _].
  apply negb_true_iff in Hc'. rewrite Hc'.
  now rewrite IH.
Qed.

Lemma split_ws_cons_cons (c c' : ascii) (s : QString) :
  regex_space c = false -> regex_space c' = false ->
  split_ws (String c (String c' s))
  = match split_ws (String c' s) with
    | h :: t => String c h :: t
    | [] => [String c EmptyString]
    end.
Proof.
  intros Hc Hc'.
  change (split_ws (String c (String c' s)))
    with (if regex_space c then split_ws (String c' s)
          else if regex_space c' then String c EmptyString :: split_ws (String c' s)
          else match split_ws (String c' s) with
               | h :: t => String c h :: t
               | [] => [String c EmptyString]
               end).
  now rewrite Hc, Hc'.
Qed.

Lemma split_ws_word_space (t rest : QString) :
  word t -> split_ws (t ++ " " ++ rest) = t :: split_ws rest.
Proof.
  intros [Hne Hall]. induction t as [|c t IH]; [discriminate |].
  simpl in Hall. apply andb_true_iff in Hall as [Hc Ht].
  apply negb_true_iff in Hc.
  destruct t as [|c' t'].
  - change (String c EmptyString ++ " " ++ rest) with (String c (String " " rest)).
    cbn [split_ws]. now rewrite Hc.
  - pose proof Ht as Ht'. simpl in Ht'. apply andb_true_iff in Ht' as [Hc' _].
    apply negb_true_iff in Hc'.
    change (String c (String c' t') ++ " " ++ rest)
      with (String c (String c' (t' ++ " " ++ rest))).
    rewrite split_ws_cons_cons by assumption.
    change (String c' (t' ++ " " ++ rest)) with (String c' t' ++ " " ++ rest).
    now rewrite IH.
Qed.

(** Splitting the words joined by single spaces gives the words back. *)
Lemma split_ws_concat (ws : list QString) :
  Forall word ws -> split_ws (String.concat " " ws) = ws.
Proof.
  induction 1 as [|w ws Hw Hws IH]; [reflexivity |].
  destruct ws as [|w' ws'].
  - now apply split_ws_word.
  - change (String.concat " " (w :: w' :: ws'))
      with (w ++ " " ++ String.concat " " (w' :: ws')).
    rewrite split_ws_word_space by exact Hw. now rewrite IH.
Qed.

Lemma all_chars_and (P Q : ascii -> bool) (s : QString) :
  all_chars (fun c => P c && Q c) s = all_chars P s && all_chars Q s.
Proof.
  induction s as [|c s IH]; simpl; [reflexivity |].
  rewrite IH. destruct (P c), (Q c), (all_chars P s); reflexivity.
Qed.

Lemma split_ws_plain_words (s : QString) :
  contains_char ":" s = false -> Forall plain_word (split_ws s).
Proof.
  intros Hs. apply contains_char_all_chars in Hs.
  assert (H : all_chars
                (fun c => regex_space c
                          || (negb (regex_space c) && not_char ":" c)) s = true).
  { induction s as [|c s IH]; simpl in *; [reflexivity |].
    apply andb_true_iff in Hs as [Hc Hs].
    rewrite Hc, IH by exact Hs. now destruct (regex_space c). }
  apply split_ws_tokens in H.
  eapply List.Forall_impl; [| exact H].
  intros t [Hne Hall]. rewrite all_chars_and in Hall.
  apply andb_true_iff in Hall as [Hw Hcolon].
  split; [split; assumption | now apply contains_char_all_chars].
Qed.

(** ** Joining the words *)

Lemma concat_snoc (sep : QString) (ws : list QString) (t : QString) :
  ws <> [] ->
  String.concat sep (ws ++ [t]) = String.concat sep ws ++ sep ++ t.
Proof.
  induction ws as [|a ws IH]; intros Hne; [contradiction |].
  destruct ws as [|b ws'].
  - reflexivity.
  - change (String.concat sep ((a :: b :: ws') ++ [t]))
      with (a ++ sep ++ String.concat sep ((b :: ws') ++ [t])).
    rewrite IH by discriminate.
    change (String.concat sep (a :: b :: ws'))
      with (a ++ sep ++ String.concat sep (b :: ws')).
    now rewrite !string_app_assoc.
Qed.

Lemma isEmpty_app (a b : QString) : isEmpty (a ++ b) = isEmpty a && isEmpty b.
Proof. destruct a; reflexivity. Qed.

Lemma isEmpty_concat (sep : QString) (ws : list QString) :
  Forall (fun t => isEmpty t = false) ws ->
  isEmpty (String.concat sep ws) = match ws with [] => true | _ => false end.
Proof.
  intros H. destruct H as [|w ws Hw Hws]; [reflexivity |].
  destruct ws; [exact Hw |].
  change (String.concat sep (w :: q :: ws))
    with (w ++ sep ++ String.concat sep (q :: ws)).
  now rewrite isEmpty_app, Hw.
Qed.

(** The append of a token to words joined by single spaces joins one more
    word. *)
Lemma append_token_concat (ws : list QString) (t : QString) :
  Forall (fun t => isEmpty t = false) ws ->
  append_token (String.concat " " ws) t = String.concat " " (ws ++ [t]).
Proof.
  intros H. unfold append_token. rewrite (isEmpty_concat _ _ H).
  destruct ws as [|w ws]; [reflexivity |].
  cbn [negb]. rewrite concat_snoc by discriminate.
  now rewrite string_app_assoc.
Qed.

Lemma plain_word_nonempty (ws : list QString) :
  Forall plain_word ws -> Forall (fun t => isEmpty t = false) ws.
Proof. apply List.Forall_impl. now intros t [[H _] _]. Qed.

Lemma plain_word_word (ws : list QString) :
  Forall plain_word ws -> Forall word ws.
Proof. apply List.Forall_impl. now intros t [H _]. Qed.

(** ** The parse of the filter text *)

Section ParseProperties.

Variable kColumns : list QString.

(** What holds of the start of the parse and is kept by every token holds
    of the parse. *)
Lemma Parse_invariant (Inv : QString * Tags -> Prop) :
  Inv (EmptyString, ∅) ->
  (forall acc token, word token -> Inv acc -> Inv (parse_token kColumns acc token)) ->
  forall filter, Inv (Parse kColumns filter).
Proof.
  intros H0 Hstep filter. unfold Parse.
  pose proof (split_ws_words filter) as Hw.
  revert Hw. generalize (split_ws filter) as tokens.
  generalize (EmptyString, ∅ : Tags) H0.
  intros acc Hacc tokens. revert acc Hacc.
  induction tokens as [|t tokens IH]; intros acc Hacc Hw; [exact Hacc |].
  inversion Hw; subst. cbn [fold_left]. apply IH; [| assumption].
  now apply Hstep.
Qed.

(** The words of the free text: plain words joined by single spaces. *)
Lemma parse_token_free_text (acc : QString * Tags) (token : QString) :
  word token ->
  (exists ws, Forall plain_word ws /\ fst acc = String.concat " " ws) ->
  exists ws, Forall plain_word ws
             /\ fst (parse_token kColumns acc token) = String.concat " " ws.
Proof.
  intros [Hne Hsp] (ws & Hws & Hacc). destruct acc as [filter tags].
  cbn [fst] in Hacc. subst filter. unfold parse_token.
  destruct (contains_char ":" token) eqn:Hcolon.
  - destruct (list_contains_ci kColumns (section ":" 0 0 token)).
    + destruct (negb _ && negb _); exists ws; now split.
    + destruct (isEmpty (trimmed (remove ":" token))) eqn:He; cbn [negb fst].
      * exists ws. now split.
      * exists (ws ++ [trimmed (remove ":" token)])%list. split.
        -- apply Forall_app. split; [exact Hws |].
           constructor; [| constructor].
           split; [split; [exact He |] |].
           ++ now apply all_chars_trimmed, all_chars_remove.
           ++ apply contains_char_all_chars, all_chars_trimmed.
              apply contains_char_all_chars, contains_char_remove.
        -- apply append_token_concat, plain_word_nonempty, Hws.
  - exists (ws ++ [token])%list. cbn [fst]. split.
    + apply Forall_app. split; [exact Hws |].
      constructor; [| constructor]. now repeat split.
    + apply append_token_concat, plain_word_nonempty, Hws.
Qed.

Lemma Parse_free_text_words (filter : QString) :
  exists ws, Forall plain_word ws
             /\ fst (Parse kColumns filter) = String.concat " " ws.
Proof.
  apply (Parse_invariant
           (fun acc => exists ws, Forall plain_word ws
                                  /\ fst acc = String.concat " " ws)).
  - exists []. split; [constructor | reflexivity].
  - intros acc token Hw Hacc. now apply parse_token_free_text.
Qed.

(** Plain words go to the free text one after the other. *)
Lemma parse_plain_words (ws ws0 : list QString) (tags : Tags) :
  Forall plain_word ws -> Forall plain_word ws0 ->
  fold_left (parse_token kColumns) ws (String.concat " " ws0, tags)
  = (String.concat " " (ws0 ++ ws), tags).
Proof.
  intros Hws. revert ws0.
  induction Hws as [|w ws [Hw Hcolon] Hws IH]; intros ws0 Hws0.
  - cbn [fold_left]. now rewrite app_nil_r.
  - cbn [fold_left]. rewrite parse_token_plain by exact Hcolon.
    rewrite append_token_concat by now apply plain_word_nonempty.
    rewrite IH.
    + now rewrite <- app_assoc.
    + apply Forall_app. split; [exact Hws0 |]. constructor; [| constructor].
      now split.
Qed.

(** X5.  A filter text without a colon parses to no tags, and to the free
    text made of its tokens joined by single spaces. *)
Theorem Parse_without_colon (filter : QString) :
  contains_char ":" filter = false ->
  Parse kColumns filter = (String.concat " " (split_ws filter), ∅).
Proof.
  intros Hcolon. unfold Parse.
  change EmptyString with (String.concat " " []) at 1.
  rewrite parse_plain_words; [reflexivity | | constructor].
  now apply split_ws_plain_words.
Qed.

(** X6.  The parse of the free text of a parse is that free text again,
    with no tags: the free text holds no colon and its words are separated
    by single spaces. *)
Theorem Parse_free_text_again (filter : QString) :
  Parse kColumns (fst (Parse kColumns filter))
  = (fst (Parse kColumns filter), ∅)
  /\ contains_char ":" (fst (Parse kColumns filter)) = false.
Proof.
  destruct (Parse_free_text_words filter) as (ws & Hws & ->).
  split.
  - unfold Parse at 1. rewrite split_ws_concat by now apply plain_word_word.
    change EmptyString with (String.concat " " []) at 1.
    now rewrite parse_plain_words; [| | constructor].
  - apply contains_char_all_chars.
    induction Hws as [|w ws [_ Hw] Hws IH]; [reflexivity |].
    destruct ws as [|w' ws'].
    + now apply contains_char_all_chars.
    + change (String.concat " " (w :: w' :: ws'))
        with (w ++ " " ++ String.concat " " (w' :: ws')).
      rewrite !all_chars_app, IH.
      apply contains_char_all_chars in Hw. now rewrite Hw.
Qed.

End ParseProperties.

Lemma Parse_without_colon_witness :
  Parse kColumns_spec "  daft   punk " = ("daft punk", ∅).
Proof.
  apply (Parse_without_colon kColumns_spec "  daft   punk "). reflexivity.
Defined.

(** ** The entries of the tag map *)

Lemma split_char_fields (Q : ascii -> bool) (sep : ascii) (s : QString) :
  all_chars Q s = true -> Forall (fun f => all_chars Q f = true) (split_char sep s).
Proof.
  induction s as [|c s IH]; intros Hs.
  - constructor; [reflexivity | constructor].
  - simpl in Hs. apply andb_true_iff in Hs as [Hc Hs]. specialize (IH Hs).
    cbn [split_char]. destruct (Ascii.eqb c sep).
    + constructor; [reflexivity | exact IH].
    + destruct (split_char sep s) as [|h t].
      * constructor; [| constructor]. simpl. now rewrite Hc.
      * inversion IH; subst. constructor; [| assumption].
        simpl. now rewrite Hc.
Qed.

Lemma all_chars_concat (Q : ascii -> bool) (sep : QString) (l : list QString) :
  all_chars Q sep = true ->
  Forall (fun f => all_chars Q f = true) l ->
  all_chars Q (String.concat sep l) = true.
Proof.
  intros Hsep Hl. induction Hl as [|f l Hf Hl IH]; [reflexivity |].
  destruct l as [|g l']; [exact Hf |].
  change (String.concat sep (f :: g :: l'))
    with (f ++ sep ++ String.concat sep (g :: l')).
  now rewrite !all_chars_app, Hf, Hsep, IH.
Qed.

(** The characters of a section are characters of the text, or the
    separator. *)
Lemma all_chars_section (Q : ascii -> bool) (sep : ascii) (a b : Z) (s : QString) :
  Q sep = true -> all_chars Q s = true -> all_chars Q (section sep a b s) = true.
Proof.
  intros Hsep Hs. unfold section.
  destruct (_ || _ || _); [reflexivity |].
  apply all_chars_concat; [simpl; now rewrite Hsep |].
  apply Forall_take, Forall_drop. now apply split_char_fields.
Qed.

Lemma split_char_first (sep : ascii) (s : QString) :
  exists h t, split_char sep s = h :: t /\ contains_char sep h = false.
Proof.
  induction s as [|c s (h & t & IH & Hh)].
  - exists EmptyString, []. now split.
  - cbn [split_char]. rewrite IH.
    destruct (Ascii.eqb c sep) eqn:Hc.
    + exists EmptyString, (h :: t). now split.
    + exists (String c h), t. split; [reflexivity |]. simpl. now rewrite Hc.
Qed.

(** The text before the first separator holds no separator. *)
Lemma section_first_no_sep (sep : ascii) (s : QString) :
  contains_char sep (section sep 0 0 s) = false.
Proof.
  destruct (split_char_first sep s) as (h & t & Hsplit & Hh).
  unfold section. rewrite Hsplit.
  replace (Z.of_nat (List.length (h :: t)) <=? 0) with false
    by (symmetry; apply Z.leb_gt; simpl List.length; lia).
  exact Hh.
Qed.

Lemma remove_absent (ch : ascii) (s : QString) :
  contains_char ch s = false -> remove ch s = s.
Proof.
  induction s as [|c s IH]; simpl; [reflexivity |].
  intros [Hc Hs]%orb_false_iff. now rewrite Hc, IH.
Qed.

Lemma isSpace_toLower_char (c : ascii) : isSpace (toLower_char c) = isSpace c.
Proof. destruct c as [[] [] [] [] [] [] [] []]; reflexivity. Qed.

Lemma isEmpty_toLower (s : QString) : isEmpty (toLower s) = isEmpty s.
Proof. destruct s; reflexivity. Qed.

Lemma ltrim_toLower (s : QString) : ltrim (toLower s) = toLower (ltrim s).
Proof.
  induction s as [|c s IH]; simpl; [reflexivity |].
  rewrite isSpace_toLower_char. now destruct (isSpace c).
Qed.

Lemma rtrim_toLower (s : QString) : rtrim (toLower s) = toLower (rtrim s).
Proof.
  induction s as [|c s IH]; simpl; [reflexivity |].
  rewrite isSpace_toLower_char, IH, isEmpty_toLower.
  now destruct (isSpace c && isEmpty (rtrim s)).
Qed.

(** Trimming and lowering commute. *)
Lemma trimmed_toLower (s : QString) : trimmed (toLower s) = toLower (trimmed s).
Proof. unfold trimmed. now rewrite ltrim_toLower, rtrim_toLower. Qed.

Lemma rtrim_rtrim (s : QString) : rtrim (rtrim s) = rtrim s.
Proof.
  induction s as [|c s IH]; [reflexivity |].
  cbn [rtrim]. destruct (isSpace c && isEmpty (rtrim s)) eqn:Hc; [reflexivity |].
  cbn [rtrim]. now rewrite IH, Hc.
Qed.

Lemma ltrim_fixed (s : QString) :
  match s with
  | EmptyString => True
  | String c _ => isSpace c = false
  end ->
  ltrim s = s.
Proof. destruct s as [|c s]; [reflexivity |]. simpl. now intros ->. Qed.

Lemma ltrim_head (s : QString) :
  match ltrim s with
  | EmptyString => True
  | String c _ => isSpace c = false
  end.
Proof.
  induction s as [|c s IH]; [exact I |].
  simpl. destruct (isSpace c) eqn:Hc; [exact IH | exact Hc].
Qed.

Lemma rtrim_head (s : QString) :
  match s with
  | EmptyString => True
  | String c _ => isSpace c = false
  end ->
  match rtrim s with
  | EmptyString => True
  | String c _ => isSpace c = false
  end.
Proof.
  destruct s as [|c s]; [trivial |].
  intros Hc. cbn [rtrim]. rewrite Hc. exact Hc.
Qed.

(** A trimmed text has no space left at its ends: trimming it again
    changes nothing. *)
Lemma trimmed_trimmed (s : QString) : trimmed (trimmed s) = trimmed s.
Proof.
  unfold trimmed.
  rewrite (ltrim_fixed (rtrim (ltrim s))) by apply rtrim_head, ltrim_head.
  apply rtrim_rtrim.
Qed.

Section TagEntries.

Variable kColumns : list QString.

Lemma plain_word_trimmed_remove (s : QString) :
  all_chars (fun c => negb (regex_space c)) s = true ->
  isEmpty (trimmed (remove ":" s)) = false ->
  plain_word (trimmed (remove ":" s)).
Proof.
  intros Hs Hne. split; [split; [exact Hne |] |].
  - now apply all_chars_trimmed, all_chars_remove.
  - apply contains_char_all_chars, all_chars_trimmed.
    apply contains_char_all_chars, contains_char_remove.
Qed.

(** A token puts into the tag map, if anything, one entry made of the
    trimmed halves of the token. *)
Lemma parse_token_tags (P : QString -> QString -> Prop)
    (acc : QString * Tags) (token : QString) :
  (contains_char ":" token = true ->
   list_contains_ci kColumns (section ":" 0 0 token) = true ->
   isEmpty (trimmed (remove ":" (section ":" 0 0 token))) = false ->
   isEmpty (trimmed (remove ":" (section ":" 1 (-1) token))) = false ->
   P (trimmed (remove ":" (section ":" 0 0 token)))
     (trimmed (remove ":" (section ":" 1 (-1) token)))) ->
  map_Forall P (snd acc) ->
  map_Forall P (snd (parse_token kColumns acc token)).
Proof.
  intros Hnew Hacc. destruct acc as [filter tags]. unfold parse_token.
  destruct (contains_char ":" token) eqn:Hcolon; [| exact Hacc].
  destruct (list_contains_ci kColumns (section ":" 0 0 token)) eqn:Hk.
  - destruct (isEmpty (trimmed (remove ":" (section ":" 0 0 token)))) eqn:Ht;
      [exact Hacc |].
    destruct (isEmpty (trimmed (remove ":" (section ":" 1 (-1) token)))) eqn:Hv;
      [exact Hacc |].
    cbn [negb andb snd]. apply map_Forall_insert_2; [| exact Hacc].
    now apply Hnew.
  - now destruct (negb _).
Qed.

(** X7.  Every entry of the tag map of a parse has a key and a value that
    are non-empty, hold no colon and no character of the class [\s] (space,
    tab, line feed, vertical tab, form feed, carriage return), and are
    trimmed: no character that [QChar::isSpace] takes for a space stands
    at either end. *)
Theorem Parse_tag_entries (filter : QString) (key value : QString) :
  snd (Parse kColumns filter) !! key = Some value ->
  (plain_word key /\ trimmed key = key)
  /\ (plain_word value /\ trimmed value = value).
Proof.
  revert key value.
  change (map_Forall (fun key value =>
                        (plain_word key /\ trimmed key = key)
                        /\ (plain_word value /\ trimmed value = value))
            (snd (Parse kColumns filter))).
  apply (Parse_invariant kColumns
           (fun acc => map_Forall
                         (fun key value =>
                            (plain_word key /\ trimmed key = key)
                            /\ (plain_word value /\ trimmed value = value))
                         (snd acc))).
  - apply map_Forall_empty.
  - intros acc token [_ Hsp] Hacc. apply parse_token_tags; [| exact Hacc].
    intros _ _ Ht Hv.
    split; (split; [| apply trimmed_trimmed]);
      apply plain_word_trimmed_remove; try assumption;
      now apply all_chars_section.
Qed.

(** X8.  When the names of [kColumns] have no space at their ends, every
    key of the tag map of a parse is one of these names, up to the case of
    its letters. *)
Theorem Parse_tag_keys_recognized (filter : QString) (key value : QString) :
  Forall (fun name => trimmed name = name) kColumns ->
  snd (Parse kColumns filter) !! key = Some value ->
  list_contains_ci kColumns key = true.
Proof.
  intros Hk. revert key value.
  change (map_Forall (fun key _ => list_contains_ci kColumns key = true)
            (snd (Parse kColumns filter))).
  apply (Parse_invariant kColumns
           (fun acc => map_Forall
                         (fun key _ => list_contains_ci kColumns key = true)
                         (snd acc))).
  - apply map_Forall_empty.
  - intros acc token _ Hacc. apply parse_token_tags; [| exact Hacc].
    intros _ Hin _ _.
    rewrite remove_absent by apply section_first_no_sep.
    unfold list_contains_ci in *. apply existsb_exists in Hin as (name & Hname & Heq).
    apply existsb_exists. exists name. split; [exact Hname |].
    unfold equal_ci in *. apply String.eqb_eq in Heq. apply String.eqb_eq.
    rewrite <- trimmed_toLower, <- Heq, trimmed_toLower.
    pose proof (proj1 (List.Forall_forall _ _) Hk name Hname) as Htrim.
    cbv beta in Htrim. now rewrite Htrim.
Qed.

End TagEntries.

Lemma Parse_tag_entries_witness :
  (plain_word "Artist" /\ trimmed "Artist" = "Artist")
  /\ (plain_word "Daft" /\ trimmed "Daft" = "Daft").
Proof.
  apply (Parse_tag_entries kColumns_spec "house Artist:Daft" "Artist" "Daft").
  reflexivity.
Defined.

Lemma Parse_tag_keys_recognized_witness :
  list_contains_ci kColumns_spec "Artist" = true.
Proof.
  apply (Parse_tag_keys_recognized kColumns_spec "house Artist:Daft"
           "Artist" "Daft").
  - repeat constructor.
  - reflexivity.
Defined.

(** ** Rows of the tree *)

Section Rows.

Variable kColumns : list QString.
Variable model : CollectionModel.

(** [filterAcceptsItem] on an item other than the loading indicator: the
    three tests on the parsed filter. *)
Lemma filterAcceptsItem_tests (item : CollectionItem) (qt6 : bool)
    (pattern : QString) :
  type item <> Type_LoadingIndicator ->
  filterAcceptsItem kColumns model item qt6 pattern
  = let parsed := Parse kColumns (filter_of_pattern qt6 pattern) in
    ItemMatches model item (snd parsed) (fst parsed)
    || ParentMatches model item (snd parsed) (fst parsed)
    || ChildrenMatches model item (snd parsed) (fst parsed).
Proof.
  intros Htype. unfold filterAcceptsItem.
  rewrite (ItemType_eqb_neq _ _ Htype). cbv zeta.
  destruct (isEmpty (filter_of_pattern qt6 pattern)) eqn:Hempty.
  - apply isEmpty_true in Hempty. rewrite Hempty. reflexivity.
  - destruct (Parse kColumns (filter_of_pattern qt6 pattern)) as [filter tags].
    cbn [fst snd].
    destruct (ItemMatches model item tags filter); [reflexivity |].
    now destruct (ParentMatches model item tags filter).
Qed.

Lemma ItemMatches_same_item (a b : CollectionItem) (tags : Tags)
    (filter : QString) :
  same_item a b ->
  ItemMatches model a tags filter = ItemMatches model b tags filter.
Proof.
  intros (_ & Htext & Hmeta & Hlevel & _).
  unfold ItemMatches, TagMatches_song, TagMatches_container, DisplayText.
  now rewrite Htext, Hmeta, Hlevel.
Qed.

Lemma ChildrenMatches_same_item (a b : CollectionItem) (tags : Tags)
    (filter : QString) :
  same_item a b ->
  ChildrenMatches model a tags filter = ChildrenMatches model b tags filter.
Proof.
  intros Hsame. rewrite !ChildrenMatches_unfold.
  rewrite (ItemMatches_same_item a b) by exact Hsame.
  destruct Hsame as (_ & _ & _ & _ & ->). reflexivity.
Qed.

(** X9.  A pattern made only of characters of the class [\s] (space,
    tab, line feed, vertical tab, form feed, carriage return), which are
    the characters that the split takes for separators, accepts every row
    that resolves to an item. *)
Theorem filterAcceptsRow_blank_pattern
    (sourceModel : option QAbstractItemModel) (qt6 : bool) (pattern : QString)
    (source_row : Z) (source_parent : QModelIndex) (item : CollectionItem) :
  all_chars regex_space pattern = true ->
  qobject_cast sourceModel = Some model ->
  isValid (index model source_row 0 source_parent) = true ->
  IndexToItem model (index model source_row 0 source_parent) = Some item ->
  filterAcceptsRow kColumns sourceModel qt6 pattern source_row source_parent
  = true.
Proof.
  intros Hblank Hcast Hvalid Hitem.
  unfold filterAcceptsRow. rewrite Hcast. cbv zeta. rewrite Hvalid, Hitem.
  cbn [negb]. unfold filterAcceptsItem.
  destruct (ItemType_eqb (type item) Type_LoadingIndicator); [reflexivity |].
  cbv zeta.
  destruct (isEmpty (filter_of_pattern qt6 pattern)); [reflexivity |].
  assert (Hparse : Parse kColumns (filter_of_pattern qt6 pattern)
                   = (EmptyString, ∅)).
  { unfold Parse. rewrite split_ws_spaces; [reflexivity |].
    unfold filter_of_pattern. destruct qt6; [| exact Hblank].
    now apply all_chars_remove. }
  rewrite Hparse. reflexivity.
Qed.

(** X10.  A row that is accepted has an accepted parent: when an item
    other than the loading indicator is accepted, and its parent shows the
    item among its children, the parent is accepted by the same pattern. *)
Theorem filterAcceptsItem_parent (item p : CollectionItem) (qt6 : bool)
    (pattern : QString) :
  type item <> Type_LoadingIndicator ->
  parent item = Some p ->
  (exists c, In c (children p) /\ same_item c item) ->
  filterAcceptsItem kColumns model item qt6 pattern = true ->
  filterAcceptsItem kColumns model p qt6 pattern = true.
Proof.
  intros Htype Hparent (c & Hin & Hsame) Hitem.
  destruct (ItemType_eqb (type p) Type_LoadingIndicator) eqn:Hp.
  { unfold filterAcceptsItem. now rewrite Hp. }
  assert (Hptype : type p <> Type_LoadingIndicator).
  { intros Heq. rewrite Heq in Hp. discriminate Hp. }
  rewrite filterAcceptsItem_tests in * by assumption. cbv zeta in *.
  set (tags := snd (Parse kColumns (filter_of_pattern qt6 pattern))) in *.
  set (filter := fst (Parse kColumns (filter_of_pattern qt6 pattern))) in *.
  assert (Hbelow : ChildrenMatches model item tags filter = true ->
                   ChildrenMatches model p tags filter = true).
  { intros Hc. rewrite ChildrenMatches_unfold. apply orb_true_iff. right.
    apply existsb_exists. exists c. split; [exact Hin |].
    now rewrite (ChildrenMatches_same_item c item). }
  apply orb_true_iff in Hitem as [Hitem | Hbelow'].
  - apply orb_true_iff in Hitem as [Hself | Habove].
    + rewrite Hbelow; [apply orb_true_r |].
      rewrite ChildrenMatches_unfold, Hself. reflexivity.
    + rewrite ParentMatches_unfold, Hparent in Habove.
      apply orb_true_iff in Habove as [-> | ->]; [reflexivity |].
      now rewrite orb_true_r.
  - rewrite Hbelow by exact Hbelow'. apply orb_true_r.
Qed.

(** X11.  A pattern without a colon is a search for its words joined by
    single spaces: an item other than the loading indicator is accepted if
    and only if there is no word, or the display text of the item, of an
    item above it or of an item below it contains the joined words,
    whatever the case of the letters. *)
Theorem filterAcceptsItem_plain_text (item : CollectionItem) (qt6 : bool)
    (pattern : QString) :
  type item <> Type_LoadingIndicator ->
  contains_char ":" (filter_of_pattern qt6 pattern) = false ->
  let text := String.concat " " (split_ws (filter_of_pattern qt6 pattern)) in
  filterAcceptsItem kColumns model item qt6 pattern = true
  <-> (text = EmptyString
       \/ exists i, (i = item \/ ancestor_of i item \/ descendant_of i item)
                    /\ contains_ci (DisplayText i) text = true).
Proof.
  intros Htype Hcolon text.
  rewrite filterAcceptsItem_tests by exact Htype. cbv zeta.
  assert (Hparse : Parse kColumns (filter_of_pattern qt6 pattern) = (text, ∅)).
  { unfold Parse. change EmptyString with (String.concat " " []) at 1.
    rewrite parse_plain_words; [reflexivity | | constructor].
    now apply split_ws_plain_words. }
  rewrite Hparse. cbn [fst snd].
  assert (Hmatch : forall i, ItemMatches model i ∅ text
                             = isEmpty text || contains_ci (DisplayText i) text).
  { intros i. unfold ItemMatches.
    change (bool_decide ((∅ : Tags) = ∅)) with true.
    cbn [orb]. apply andb_true_r. }
  rewrite !orb_true_iff, ParentMatches_spec, ChildrenMatches_spec.
  split.
  - intros [[Hself | (a & Ha & Hm)] | [Hself | (d & Hd & Hm)]];
      rewrite Hmatch in *;
      match goal with
      | H : _ || _ = true |- _ => apply orb_true_iff in H as [He | Hc]
      end;
      try (left; now apply isEmpty_true);
      right; eauto 6.
  - intros [He | (i & Hi & Hc)].
    + left; left. rewrite Hmatch, He. reflexivity.
    + assert (Hm : ItemMatches model i ∅ text = true)
        by (rewrite Hmatch, Hc; apply orb_true_r).
      destruct Hi as [-> | [Ha | Hd]].
      * now left; left.
      * left; right. now exists i.
      * right; right. now exists i.
Qed.

(** X12.  Tags other than albumartist, artist, album and title do not
    match a song: with a tag map that is not empty and has none of these
    four keys, in any letter case, an item that is no container of the
    levels 0 to 2 does not match, whatever its text and its song. *)
Theorem ItemMatches_song_other_tags (item : CollectionItem) (tags : Tags)
    (filter : QString) :
  tags <> ∅ ->
  (forall key value, tags !! key = Some value ->
     ~ In (toLower key) ["albumartist"; "artist"; "album"; "title"]) ->
  container_level item < 0 \/ 2 < container_level item ->
  ItemMatches model item tags filter = false.
Proof.
  intros Hne Hkeys Hlevel.
  assert (Hsong : TagMatches_song item tags = false).
  { apply not_true_is_false. intros H. unfold TagMatches_song in H.
    apply existsb_exists in H as ([key value] & Hin & Hm).
    apply list_elem_of_In, elem_of_map_to_list in Hin.
    apply (Hkeys key value Hin).
    repeat (apply orb_true_iff in Hm as [Hm | Hm]);
      apply andb_true_iff in Hm as [Hm _];
      apply String.eqb_eq in Hm; rewrite Hm; in_literals. }
  unfold ItemMatches. rewrite Hsong, andb_false_r.
  rewrite bool_decide_eq_false_2 by exact Hne.
  replace ((0 <=? container_level item) && (container_level item <=? 2))
    with false by (symmetry; apply andb_false_iff; lia).
  apply andb_false_r.
Qed.

End Rows.

Lemma filterAcceptsRow_blank_pattern_witness :
  filterAcceptsRow kColumns_spec (Some (IsCollectionModel Sample.model))
    true "   " 1 Sample.root_index = true.
Proof.
  apply (filterAcceptsRow_blank_pattern kColumns_spec Sample.model
           (Some (IsCollectionModel Sample.model)) true "   " 1
           Sample.root_index Sample.song_item).
  - reflexivity.
  - reflexivity.
  - reflexivity.
  - reflexivity.
Defined.

Lemma filterAcceptsItem_parent_witness :
  filterAcceptsItem kColumns_spec Sample.model SampleTree.album_with_song
    false "title:time" = true.
Proof.
  apply (filterAcceptsItem_parent kColumns_spec Sample.model
           SampleTree.song_below_album SampleTree.album_with_song
           false "title:time").
  - discriminate.
  - reflexivity.
  - exists Sample.song_item. split; [left; reflexivity |].
    repeat split.
  - vm_compute. reflexivity.
Defined.

Lemma filterAcceptsItem_plain_text_witness :
  filterAcceptsItem kColumns_spec Sample.model Sample.artist_item
    false " more   TIME" = true
  <-> ("more TIME" = EmptyString
       \/ exists i, (i = Sample.artist_item
                     \/ ancestor_of i Sample.artist_item
                     \/ descendant_of i Sample.artist_item)
                    /\ contains_ci (DisplayText i) "more TIME" = true).
Proof.
  apply (filterAcceptsItem_plain_text kColumns_spec Sample.model
           Sample.artist_item false " more   TIME").
  - discriminate.
  - reflexivity.
Defined.

Lemma ItemMatches_song_other_tags_witness :
  ItemMatches Sample.model Sample.song_item (<["genre" := "house"]> ∅)
    EmptyString = false.
Proof.
  apply (ItemMatches_song_other_tags Sample.model Sample.song_item
           (<["genre" := "house"]> ∅) EmptyString).
  - intros H. apply (f_equal (fun m : Tags => m !! "genre")) in H.
    vm_compute in H. discriminate H.
  - intros key value H.
    apply lookup_insert_Some in H as [[<- _] | [_ H]].
    + simpl. intros [H | [H | [H | [H | []]]]]; discriminate H.
    + rewrite lookup_empty in H. discriminate H.
  - left. simpl. lia.
Defined.

(** ** The placeholders of the statement *)

Lemma prefix_split (before s : QString) :
  String.prefix before s = true -> exists rest, s = before ++ rest.
Proof.
  revert before. induction s as [|c s IH]; intros [|b bs] H;
    try discriminate.
  - now exists EmptyString.
  - now exists (String c s).
  - rewrite prefix_cons in H. apply andb_true_iff in H as [Hb H].
    apply Ascii.eqb_eq in Hb as ->.
    destruct (IH bs H) as (rest & ->). now exists rest.
Qed.

(** The characters of an occurrence are skipped. *)
Lemma replace_from_skip (before after u v : QString) :
  replace_from (String.length u) before after (u ++ v)
  = replace_from O before after v.
Proof.
  induction u as [|c u IH]; [reflexivity |].
  change (String c u ++ v) with (String c (u ++ v)).
  cbn [String.length replace_from]. exact IH.
Qed.

Lemma replace_occurrence (b : ascii) (bs after rest : QString) :
  replace_from O (String b bs) after (String b bs ++ rest)
  = after ++ replace_from O (String b bs) after rest.
Proof.
  change (String b bs ++ rest) with (String b (bs ++ rest)).
  cbn [replace_from].
  change (String b (bs ++ rest)) with (String b bs ++ rest).
  rewrite prefix_app by (rewrite prefix_cons, Ascii.eqb_refl;
                         clear; induction bs as [|x bs IH];
                         [reflexivity | now rewrite prefix_cons, Ascii.eqb_refl]).
  replace (String.length (String b bs) - 1)%nat with (String.length bs)
    by (simpl; lia).
  now rewrite replace_from_skip.
Qed.

(** Replacing a text by another leaves the number of a character as it is
    when neither text holds the character. *)
Lemma count_replace (ch b : ascii) (bs after s : QString) :
  count ch (String b bs) = O -> count ch after = O ->
  count ch (replace (String b bs) after s) = count ch s.
Proof.
  intros Hb Ha. unfold replace.
  remember (String.length s) as n eqn:Hn.
  assert (Hle : (String.length s <= n)%nat) by lia. clear Hn.
  revert s Hle. induction n as [|n IH]; intros s Hle.
  - destruct s; [reflexivity | simpl in Hle; lia].
  - destruct s as [|c s]; [reflexivity |].
    destruct (String.prefix (String b bs) (String c s)) eqn:Hp.
    + destruct (prefix_split _ _ Hp) as (rest & Hrest).
      rewrite Hrest, replace_occurrence, !count_app, Ha, Hb.
      apply IH.
      apply (f_equal String.length) in Hrest.
      rewrite string_length_app in Hrest. simpl in Hrest, Hle. lia.
    + cbn [replace_from]. rewrite Hp. cbn [count].
      rewrite IH; [reflexivity | simpl in Hle; lia].
Qed.

Lemma count_concat_and (l : list QString) :
  count "?" (String.concat " AND " l) = placeholders l.
Proof.
  induction l as [|a l IH]; [reflexivity |].
  destruct l as [|b l'].
  - now rewrite placeholders_one.
  - change (String.concat " AND " (a :: b :: l'))
      with (a ++ " AND " ++ String.concat " AND " (b :: l')).
    rewrite !count_app, IH.
    change (a :: b :: l') with ([a] ++ b :: l')%list.
    rewrite placeholders_app, placeholders_one. reflexivity.
Qed.

Lemma Exec_sql_count (q : CollectionQuery) :
  count "?" (column_spec_ q) = O ->
  count "?" (songs_table_ q) = O ->
  count "?" (order_by_ q) = O ->
  count "?" (Exec_sql q) = placeholders (where_clauses_ q).
Proof.
  intros Hspec Htable Horder. unfold Exec_sql.
  rewrite count_replace by (reflexivity || exact Htable).
  unfold Exec_sql_limit.
  assert (Hwhere : count "?" (Exec_sql_where q) = placeholders (where_clauses_ q)).
  { unfold Exec_sql_where.
    assert (Hsql : count "?" (arg "SELECT %1 FROM %2 %3"
                                [column_spec_ q; songs_table_ q; GetInnerQuery q])
                   = O).
    { change (arg "SELECT %1 FROM %2 %3"
                [column_spec_ q; songs_table_ q; GetInnerQuery q])
        with ("SELECT " ++ column_spec_ q ++ " FROM " ++ songs_table_ q
              ++ " " ++ GetInnerQuery q ++ EmptyString).
      rewrite !count_app, Hspec, Htable.
      unfold GetInnerQuery. now destruct (duplicates_only_ q). }
    assert (Hclauses : placeholders (Exec_where_clauses q)
                       = placeholders (where_clauses_ q)).
    { unfold Exec_where_clauses. destruct (negb (include_unavailable_ q));
        [| reflexivity].
      rewrite placeholders_app, placeholders_one. simpl. lia. }
    destruct (Exec_where_clauses q) as [|c cs] eqn:Hcs.
    - rewrite Hsql. now rewrite <- Hclauses.
    - rewrite !count_app, Hsql, count_concat_and, Hclauses. reflexivity. }
  assert (Horder' : count "?" (Exec_sql_order q) = placeholders (where_clauses_ q)).
  { unfold Exec_sql_order. destruct (negb (isEmpty (order_by_ q))); [| exact Hwhere].
    rewrite !count_app, Hwhere, Horder. simpl. lia. }
  destruct (negb (limit_ q =? -1)); [| exact Horder'].
  rewrite !count_app, Horder', count_number by reflexivity. simpl. lia.
Qed.

(** X13.  When the column specification, the table name and the ORDER BY
    text hold no [?], the statement that [Exec] prepares holds as many [?]
    as the accumulated clauses do: the SELECT head, the join, the clause
    on unavailable songs, the LIMIT clause and the substitution of the
    table name add none. *)
Theorem Exec_sql_placeholders (q : CollectionQuery) :
  count "?" (column_spec_ q) = O ->
  count "?" (songs_table_ q) = O ->
  count "?" (order_by_ q) = O ->
  count "?" (Exec_sql q) = placeholders (where_clauses_ q).
Proof. apply Exec_sql_count. Qed.

(** X14.  For a query built by the constructor and operations whose column
    and operator texts hold no [?], over a table whose name holds no [?],
    the statement that [Exec] prepares holds exactly as many [?] as values
    are bound to it. *)
Theorem Exec_binds_every_placeholder
    (ParseSearchRating : QString -> Float32.float)
    (float_toString : Float32.float -> QString)
    (now : Z) (songs_table : QString) (filter_options : CollectionFilterOptions)
    (ops : list Operation) :
  count "?" songs_table = O ->
  Forall Operation_wf ops ->
  let q := run ParseSearchRating float_toString ops
             (CollectionQuery_new now songs_table filter_options) in
  count "?" (Exec_sql q) = List.length (bound_values_ q).
Proof.
  intros Htable Hwf q.
  destruct (run_appends ParseSearchRating float_toString ops
              (CollectionQuery_new now songs_table filter_options) Hwf)
    as (cs & vs & Hrun & Hcount).
  subst q. rewrite Hrun.
  assert (Hfields : forall q0,
            q0 = CollectionQuery_new now songs_table filter_options ->
            songs_table_ q0 = songs_table /\ column_spec_ q0 = EmptyString
            /\ order_by_ q0 = EmptyString).
  { intros q0 ->. unfold CollectionQuery_new.
    destruct (negb (max_age filter_options =? -1));
      destruct (filter_mode filter_options); repeat split. }
  destruct (Hfields _ eq_refl) as (Ht & Hs & Ho).
  rewrite Exec_sql_count.
  - unfold appended. cbn [where_clauses_ bound_values_].
    rewrite placeholders_app, length_app, Hcount.
    now rewrite CollectionQuery_new_placeholders.
  - unfold appended. cbn [column_spec_]. now rewrite Hs.
  - unfold appended. cbn [songs_table_]. now rewrite Ht.
  - unfold appended. cbn [order_by_]. now rewrite Ho.
Qed.

Lemma Exec_sql_placeholders_witness :
  count "?" (Exec_sql Sample.limit_minus_two)
  = placeholders (where_clauses_ Sample.limit_minus_two).
Proof.
  apply (Exec_sql_placeholders Sample.limit_minus_two); reflexivity.
Defined.

Lemma Exec_binds_every_placeholder_witness :
  let q := run Sample.ParseSearchRating Sample.float_toString Sample.ops
             Sample.fresh_query in
  count "?" (Exec_sql q) = List.length (bound_values_ q).
Proof.
  apply (Exec_binds_every_placeholder Sample.ParseSearchRating
           Sample.float_toString 1700000000 "songs" Sample.last_week_untagged
           Sample.ops).
  - reflexivity.
  - repeat constructor.
Defined.

(** ** The parse, token after token *)

Lemma split_ws_head (c : ascii) (s : QString) :
  regex_space c = false -> split_ws (String c s) <> [].
Proof.
  intros Hc. cbn [split_ws]. rewrite Hc.
  destruct s as [|c' s']; [discriminate |].
  destruct (regex_space c'); [discriminate |].
  now destruct (split_ws (String c' s')).
Qed.

(** The tokens of two texts joined by a space are the tokens of the first
    followed by the tokens of the second. *)
Lemma split_ws_app_space (s t : QString) :
  split_ws (s ++ " " ++ t) = (split_ws s ++ split_ws t)%list.
Proof.
  induction s as [|c s IH]; [reflexivity |].
  change (String c s ++ " " ++ t) with (String c (s ++ " " ++ t)).
  destruct (regex_space c) eqn:Hc.
  { cbn [split_ws]. now rewrite Hc. }
  destruct s as [|c' s'].
  { change (EmptyString ++ " " ++ t) with (String " " t).
    cbn [split_ws]. now rewrite Hc. }
  change (String c' s' ++ " " ++ t) with (String c' (s' ++ " " ++ t)) in *.
  destruct (regex_space c') eqn:Hc'.
  - cbn [split_ws] in *. rewrite Hc, Hc' in *. cbn [app]. now rewrite IH.
  - rewrite !split_ws_cons_cons by assumption. rewrite IH.
    pose proof (split_ws_head c' s' Hc') as Hne.
    destruct (split_ws (String c' s')) as [|h tl]; [contradiction | reflexivity].
Qed.

(** X15.  The parse goes token after token: the parse of a text, a space
    and a second text is the parse of the first text carried on over the
    tokens of the second. *)
Theorem Parse_app_space (kColumns : list QString) (s t : QString) :
  Parse kColumns (s ++ " " ++ t)
  = fold_left (parse_token kColumns) (split_ws t) (Parse kColumns s).
Proof. unfold Parse. now rewrite split_ws_app_space, fold_left_app. Qed.

(** X16.  The last tag wins: after a text, a token that is a word with a
    recognized tag and two non-empty halves leaves the free text as it is
    and gives its tag the value of the token, whatever value the tag had. *)
Theorem Parse_last_tag_wins (kColumns : list QString) (filter token : QString) :
  word token ->
  contains_char ":" token = true ->
  list_contains_ci kColumns (section ":" 0 0 token) = true ->
  isEmpty (trimmed (remove ":" (section ":" 0 0 token))) = false ->
  isEmpty (trimmed (remove ":" (section ":" 1 (-1) token))) = false ->
  let tag := trimmed (remove ":" (section ":" 0 0 token)) in
  let value := trimmed (remove ":" (section ":" 1 (-1) token)) in
  Parse kColumns (filter ++ " " ++ token)
  = (fst (Parse kColumns filter), <[tag := value]> (snd (Parse kColumns filter)))
  /\ snd (Parse kColumns (filter ++ " " ++ token)) !! tag = Some value.
Proof.
  intros Hw Hc Hk Ht Hv tag value.
  assert (Heq : Parse kColumns (filter ++ " " ++ token)
                = (fst (Parse kColumns filter),
                   <[tag := value]> (snd (Parse kColumns filter)))).
  { unfold Parse at 1. rewrite split_ws_app_space, fold_left_app.
    rewrite (split_ws_word token Hw). cbn [fold_left].
    fold (Parse kColumns filter).
    destruct (Parse kColumns filter) as [f tags]. cbn [fst snd].
    now apply parse_token_tag. }
  split; [exact Heq |].
  rewrite Heq. cbn [snd]. apply lookup_insert_eq.
Qed.

Lemma Parse_last_tag_wins_witness :
  Parse kColumns_spec ("artist:justice house" ++ " " ++ "artist:Daft")
  = (fst (Parse kColumns_spec "artist:justice house"),
     <["artist" := "Daft"]> (snd (Parse kColumns_spec "artist:justice house")))
  /\ snd (Parse kColumns_spec ("artist:justice house" ++ " " ++ "artist:Daft"))
     !! "artist" = Some "Daft".
Proof.
  apply (Parse_last_tag_wins kColumns_spec "artist:justice house" "artist:Daft").
  - split; reflexivity.
  - reflexivity.
  - reflexivity.
  - reflexivity.
  - reflexivity.
Defined.

(** ** More of the query *)



(** X18.  An operator text that is none of [<], [>], [<=], [>=] and [<>]
    is taken by [AddWhereRating] for the operator [=]. *)
Theorem AddWhereRating_other_operator
    (ParseSearchRating : QString -> Float32.float)
    (float_toString : Float32.float -> QString)
    (value : QVariant) (op : QString) (q : CollectionQuery) :
  ~ In op ["<"; ">"; "<="; ">="; "<>"] ->
  AddWhereRating ParseSearchRating float_toString value op q
  = AddWhereRating ParseSearchRating float_toString value "=" q.
Proof.
  intros Hop. unfold AddWhereRating.
  repeat match goal with
         | |- context [String.eqb op ?o] =>
             destruct (String.eqb_spec op o) as [-> | _];
             [exfalso; apply Hop; in_literals |]
         end.
  reflexivity.
Qed.

Lemma AddWhereRating_other_operator_witness :
  AddWhereRating Sample.ParseSearchRating Sample.float_toString
    (QVariant_String (Some "4.0")) "!=" Sample.fresh_query
  = AddWhereRating Sample.ParseSearchRating Sample.float_toString
      (QVariant_String (Some "4.0")) "=" Sample.fresh_query.
Proof.
  apply (AddWhereRating_other_operator Sample.ParseSearchRating
           Sample.float_toString (QVariant_String (Some "4.0")) "!="
           Sample.fresh_query).
  simpl. intros [H | [H | [H | [H | [H | []]]]]]; discriminate H.
Defined.

(** ** The images of the artist biography *)

Section WikipediaProperties.

Variable QUrl_isValid : QString -> bool.

Lemma image_url_spec (value_image : QJsonValue) (url : QString) :
  In url (Wikipedia.image_url QUrl_isValid value_image) ->
  QUrl_isValid url = true
  /\ url = Json.toString (Json.value (Json.toObject value_image) "url")
  /\ Wikipedia.kMinimumImageSize
     <= Json.toInt (Json.value (Json.toObject value_image) "width")
  /\ Wikipedia.kMinimumImageSize
     <= Json.toInt (Json.value (Json.toObject value_image) "height").
Proof.
  unfold Wikipedia.image_url.
  destruct (negb (Json.isObject value_image)); [intros [] |].
  destruct (_ || _ || _); [intros [] |].
  cbv zeta.
  set (width := Json.toInt (Json.value _ "width")).
  set (height := Json.toInt (Json.value _ "height")).
  destruct (QUrl_isValid _) eqn:Hvalid; [| intros []].
  destruct (width <? Wikipedia.kMinimumImageSize) eqn:Hw; [intros [] |].
  destruct (height <? Wikipedia.kMinimumImageSize) eqn:Hh; [intros [] |].
  cbn [negb orb]. intros [<- | []].
  apply Z.ltb_ge in Hw, Hh. now repeat split.
Qed.

(** X19.  Every url that [ExtractImageUrls] returns is valid and is the
    url of an entry of the array [imageinfo] of a page of the reply whose
    width and height are 400 or more. *)
Theorem ExtractImageUrls_large_images (json_obj : QJsonObject) (url : QString) :
  In url (Wikipedia.ExtractImageUrls QUrl_isValid json_obj) ->
  QUrl_isValid url = true
  /\ exists value_page value_image,
       In value_page
         (Json.values
            (Json.toObject
               (Json.value (Json.toObject (Json.value json_obj "query")) "pages")))
       /\ In value_image
            (Json.toArray (Json.value (Json.toObject value_page) "imageinfo"))
       /\ url = Json.toString (Json.value (Json.toObject value_image) "url")
       /\ 400 <= Json.toInt (Json.value (Json.toObject value_image) "width")
       /\ 400 <= Json.toInt (Json.value (Json.toObject value_image) "height").
Proof.
  unfold Wikipedia.ExtractImageUrls.
  destruct (_ && _); [| intros []]. cbv zeta.
  destruct (_ && _); [| intros []].
  intros (value_page & Hpage & Hurl)%in_flat_map.
  unfold Wikipedia.page_urls in Hurl.
  destruct (negb (Json.isObject value_page)); [destruct Hurl |].
  cbv zeta in Hurl. destruct (_ || _ || _); [destruct Hurl |].
  apply in_flat_map in Hurl as (value_image & Himage & Hurl).
  apply image_url_spec in Hurl as (Hvalid & Heq & Hw & Hh).
  split; [exact Hvalid |].
  exists value_page, value_image. now repeat split.
Qed.

End WikipediaProperties.

Lemma ExtractImageUrls_large_images_witness :
  SampleJson.QUrl_isValid "https://upload.example/large.jpg" = true
  /\ exists value_page value_image,
       In value_page
         (Json.values
            (Json.toObject
               (Json.value
                  (Json.toObject (Json.value SampleJson.wikipedia_images "query"))
                  "pages")))
       /\ In value_image
            (Json.toArray (Json.value (Json.toObject value_page) "imageinfo"))
       /\ "https://upload.example/large.jpg"
          = Json.toString (Json.value (Json.toObject value_image) "url")
       /\ 400 <= Json.toInt (Json.value (Json.toObject value_image) "width")
       /\ 400 <= Json.toInt (Json.value (Json.toObject value_image) "height").
Proof.
  apply (ExtractImageUrls_large_images SampleJson.QUrl_isValid
           SampleJson.wikipedia_images "https://upload.example/large.jpg").
  vm_compute. left. reflexivity.
Defined.

Example ExtractImageUrls_sample :
  Wikipedia.ExtractImageUrls SampleJson.QUrl_isValid SampleJson.wikipedia_images
  = ["https://upload.example/large.jpg"].
Proof. vm_compute. reflexivity. Qed.

Lemma image_title_spec (value_image : QJsonValue) (t : QString) :
  In t (Wikipedia.image_title value_image) ->
  endsWith_ci t ".jpg" = true \/ endsWith_ci t ".png" = true.
Proof.
  unfold Wikipedia.image_title.
  destruct (negb (Json.isObject value_image)); [intros [] |].
  cbv zeta. destruct (negb (Json.contains _ _)); [intros [] |].
  destruct (endsWith_ci _ ".jpg") eqn:Hjpg.
  - intros [<- | []]. now left.
  - destruct (endsWith_ci _ ".png") eqn:Hpng; [| intros []].
    intros [<- | []]. now right.
Qed.

(** X20.  Every title for which [GetImageTitlesFinished] asks for an image
    ends with [.jpg] or [.png], in any letter case. *)
Theorem GetImageTitlesFinished_titles_images (json_obj : QJsonObject)
    (t : QString) :
  In t (Wikipedia.GetImageTitlesFinished_titles json_obj) ->
  endsWith_ci t ".jpg" = true \/ endsWith_ci t ".png" = true.
Proof.
  unfold Wikipedia.GetImageTitlesFinished_titles.
  destruct (_ && _ && _); [| intros []]. cbv zeta.
  destruct (_ && _); [| intros []].
  intros (value_page & _ & Ht)%in_flat_map.
  unfold Wikipedia.page_titles in Ht.
  destruct (negb (Json.isObject value_page)); [destruct Ht |].
  cbv zeta in Ht. destruct (_ || _ || _); [destruct Ht |].
  apply in_flat_map in Ht as (value_image & _ & Ht).
  now apply image_title_spec in Ht.
Qed.

Lemma GetImageTitlesFinished_titles_images_witness :
  endsWith_ci "File:Daft Punk 2013.JPG" ".jpg" = true
  \/ endsWith_ci "File:Daft Punk 2013.JPG" ".png" = true.
Proof.
  apply (GetImageTitlesFinished_titles_images
           [("query",
             Json_Object
               [("pages",
                 Json_Object
                   [("1234",
                     Json_Object
                       [("images",
                         Json_Array
                           [Json_Object
                              [("title", Json_String "File:Daft Punk 2013.JPG")];
                            Json_Object
                              [("title", Json_String "File:Commons-logo.svg")]]);
                        ("title", Json_String "Daft Punk")])])])]
           "File:Daft Punk 2013.JPG").
  vm_compute. left. reflexivity.
Defined.

(** ** The covers of the Spotify search *)

Lemma image_result_spec (album : QString) (artists : list QString)
    (value_image : QJsonValue) (r : Spotify.CoverProviderSearchResult) :
  In r (Spotify.image_result album artists value_image) ->
  Spotify.album r = album
  /\ Spotify.artist r = match artists with a :: _ => a | [] => EmptyString end
  /\ 300 <= fst (Spotify.image_size r)
  /\ 300 <= snd (Spotify.image_size r).
Proof.
  unfold Spotify.image_result.
  destruct (negb (Json.isObject value_image)); [intros [] |].
  cbv zeta. destruct (_ || _ || _); [intros [] |].
  set (width := Json.toInt (Json.value _ "width")).
  set (height := Json.toInt (Json.value _ "height")).
  destruct (width <? 300) eqn:Hw; [intros [] |].
  destruct (height <? 300) eqn:Hh; [intros [] |].
  cbn [orb]. intros [<- | []]. cbn.
  apply Z.ltb_ge in Hw, Hh. now repeat split.
Qed.

(** X21.  Every result of [HandleSearchReply] is an image of 300 by 300 or
    more. *)
Theorem HandleSearchReply_large_images (extract : QString)
    (json_obj : QJsonObject) (r : Spotify.CoverProviderSearchResult) :
  In r (Spotify.HandleSearchReply_results extract json_obj) ->
  300 <= fst (Spotify.image_size r) /\ 300 <= snd (Spotify.image_size r).
Proof.
  unfold Spotify.HandleSearchReply_results.
  destruct json_obj as [|member members]; [intros [] |].
  destruct (_ || _); [intros [] |]. cbv zeta.
  destruct (_ || _); [intros [] |].
  intros (value_item & _ & Hr)%in_flat_map.
  unfold Spotify.item_results in Hr.
  destruct (negb (Json.isObject value_item)); [destruct Hr |].
  cbv zeta in Hr. destruct (_ || _ || _ || _ || _); [destruct Hr |].
  apply in_flat_map in Hr as (value_image & _ & Hr).
  now apply image_result_spec in Hr.
Qed.

(** X22.  The results of one item of the reply have the same album, the
    name of the album of the item, and the same artist, the first of the
    artists of the album that have a name. *)
Theorem item_results_same_album (value_item : QJsonValue)
    (r1 r2 : Spotify.CoverProviderSearchResult) :
  In r1 (Spotify.item_results value_item) ->
  In r2 (Spotify.item_results value_item) ->
  Spotify.album r1 = Spotify.album r2 /\ Spotify.artist r1 = Spotify.artist r2.
Proof.
  unfold Spotify.item_results.
  destruct (negb (Json.isObject value_item)); [intros [] |].
  cbv zeta. destruct (_ || _ || _ || _ || _); [intros [] |].
  intros (i1 & _ & H1)%in_flat_map (i2 & _ & H2)%in_flat_map.
  apply image_result_spec in H1 as (Ha1 & Hb1 & _).
  apply image_result_spec in H2 as (Ha2 & Hb2 & _).
  split; congruence.
Qed.

Example HandleSearchReply_sample :
  Spotify.HandleSearchReply_results "albums" SampleJson.spotify_albums
  = [Spotify.mkResult "Daft Punk" "Discovery" "https://i.example/640" (600, 600)].
Proof. vm_compute. reflexivity. Qed.

Lemma HandleSearchReply_large_images_witness :
  300 <= 600 /\ 300 <= 600.
Proof.
  apply (HandleSearchReply_large_images "albums" SampleJson.spotify_albums
           (Spotify.mkResult "Daft Punk" "Discovery" "https://i.example/640"
              (600, 600))).
  vm_compute. left. reflexivity.
Defined.

Lemma item_results_same_album_witness :
  Spotify.album
    (Spotify.mkResult "Daft Punk" "Discovery" "https://i.example/640" (600, 600))
  = Spotify.album
      (Spotify.mkResult "Daft Punk" "Discovery" "https://i.example/1000"
         (1000, 1000))
  /\ Spotify.artist
       (Spotify.mkResult "Daft Punk" "Discovery" "https://i.example/640" (600, 600))
     = Spotify.artist
         (Spotify.mkResult "Daft Punk" "Discovery" "https://i.example/1000"
            (1000, 1000)).
Proof.
  apply (item_results_same_album
           (Json_Object
              [("artists",
                Json_Array [Json_Object [("name", Json_String "Daft Punk")]]);
               ("images",
                Json_Array
                  [SampleJson.image "https://i.example/640"
                     SampleJson.d600 SampleJson.d600;
                   SampleJson.image "https://i.example/1000"
                     SampleJson.d1000 SampleJson.d1000]);
               ("name", Json_String "Discovery")])).
  - vm_compute. left. reflexivity.
  - vm_compute. right. left. reflexivity.
Defined.

(** ** The search of the Spotify covers *)

(** X23.  A search that starts sends a query that is not empty, asks for
    tracks and handles tracks or asks for albums and handles albums, and
    asks for ten results. *)
Theorem StartSearch_request (IsAuthenticated : bool)
    (artist album title : QString)
    (params : list Spotify.Param) (extract : QString) :
  Spotify.StartSearch IsAuthenticated artist album title = Some (params, extract) ->
  IsAuthenticated = true
  /\ exists query type,
       params = [("q", query); ("type", type); ("limit", "10")]
       /\ isEmpty query = false
       /\ ((type = "track" /\ extract = "tracks"
            /\ isEmpty album = true /\ isEmpty title = false)
           \/ (type = "album" /\ extract = "albums"
               /\ (isEmpty album = false \/ isEmpty title = true))).
Proof.
  unfold Spotify.StartSearch.
  destruct IsAuthenticated; [| discriminate]. cbn [negb].
  destruct artist as [|a artist], album as [|b album], title as [|c title];
    cbn; try discriminate;
    intros [= <- <-]; (split; [reflexivity |]);
    eexists; eexists; (split; [reflexivity |]);
    (split; [reflexivity |]); tauto.
Qed.

Lemma StartSearch_request_witness :
  true = true
  /\ exists query type,
       [("q", "Daft Punk One More Time"); ("type", "track"); ("limit", "10")]
       = [("q", query); ("type", type); ("limit", "10")]
       /\ isEmpty query = false
       /\ ((type = "track" /\ "tracks" = "tracks"
            /\ isEmpty EmptyString = true /\ isEmpty "One More Time" = false)
           \/ (type = "album" /\ "tracks" = "albums"
               /\ (isEmpty EmptyString = false \/ isEmpty "One More Time" = true))).
Proof.
  apply (StartSearch_request true "Daft Punk" EmptyString "One More Time"
           [("q", "Daft Punk One More Time"); ("type", "track"); ("limit", "10")]
           "tracks").
  reflexivity.
Defined.

(** X24.  When an album is given the title plays no part: the search is
    the search for the artist and the album. *)
Theorem StartSearch_album_over_title (IsAuthenticated : bool)
    (artist album title : QString) :
  isEmpty album = false ->
  Spotify.StartSearch IsAuthenticated artist album title
  = Spotify.StartSearch IsAuthenticated artist album EmptyString.
Proof.
  intros Halbum. unfold Spotify.StartSearch.
  rewrite Halbum, !andb_false_r. reflexivity.
Qed.

Lemma StartSearch_album_over_title_witness :
  Spotify.StartSearch true "Daft Punk" "Discovery" "One More Time"
  = Spotify.StartSearch true "Daft Punk" "Discovery" EmptyString.
Proof.
  apply (StartSearch_album_over_title true "Daft Punk" "Discovery"
           "One More Time").
  reflexivity.
Defined.

(** ** The statement, written out *)

(** A text without [%] before an occurrence is left as it is. *)
Lemma replace_after_plain (bs after u v : QString) :
  count "%" u = O ->
  replace_from O (String "%" bs) after (u ++ v)
  = u ++ replace_from O (String "%" bs) after v.
Proof.
  induction u as [|c u IH]; intros Hu; [reflexivity |].
  simpl in Hu. destruct (Ascii.eqb c "%") eqn:Hc; [discriminate |].
  change (String c u ++ v) with (String c (u ++ v)).
  cbn [replace_from]. rewrite prefix_cons.
  replace (Ascii.eqb "%" c) with false
    by (symmetry; apply Ascii.eqb_neq; intros <-; discriminate Hc).
  cbn [andb]. rewrite IH by exact Hu. reflexivity.
Qed.

(** The three occurrences of the join are replaced. *)
Lemma replace_inner_query (duplicates_only : bool) (songs_table rest : QString) :
  replace_from O "%songs_table" songs_table
    ((if duplicates_only then
        " INNER JOIN (select * from duplicated_songs) dsongs        "
        ++ "ON (%songs_table.artist = dsongs.dup_artist       "
        ++ "AND %songs_table.album = dsongs.dup_album     "
        ++ "AND %songs_table.title = dsongs.dup_title)    "
      else EmptyString) ++ rest)
  = inner_query_of duplicates_only songs_table
    ++ replace_from O "%songs_table" songs_table rest.
Proof.
  destruct duplicates_only; [| reflexivity].
  unfold inner_query_of. rewrite !string_app_assoc.
  vm_compute. reflexivity.
Qed.

Lemma count_concat_plain (ch : ascii) (sep : QString) (l : list QString) :
  count ch sep = O -> Forall (fun c => count ch c = O) l ->
  count ch (String.concat sep l) = O.
Proof.
  intros Hsep Hl. induction Hl as [|a l Ha Hl IH]; [reflexivity |].
  destruct l as [|b l']; [exact Ha |].
  change (String.concat sep (a :: b :: l'))
    with (a ++ sep ++ String.concat sep (b :: l')).
  now rewrite !count_app, Ha, Hsep, IH.
Qed.

(** X25.  When the column specification, the table name, the clauses and
    the ORDER BY text hold no [%], the statement that [Exec] prepares is
    the SELECT head over the table, the join on the duplicated songs with
    the table name in it, the clauses joined by AND after WHERE, the ORDER
    BY text and the LIMIT, in this order: no [%songs_table] is left. *)
Theorem Exec_sql_written_out (q : CollectionQuery) :
  count "%" (column_spec_ q) = O ->
  count "%" (songs_table_ q) = O ->
  count "%" (order_by_ q) = O ->
  Forall (fun clause => count "%" clause = O) (where_clauses_ q) ->
  Exec_sql q
  = "SELECT " ++ column_spec_ q ++ " FROM " ++ songs_table_ q ++ " "
    ++ inner_query_of (duplicates_only_ q) (songs_table_ q)
    ++ where_text q ++ order_text q ++ limit_text q
  /\ count "%" (Exec_sql q) = O.
Proof.
  intros Hspec Htable Horder Hwhere.
  assert (Hw : count "%" (where_text q) = O).
  { unfold where_text.
    assert (Hall : Forall (fun clause => count "%" clause = O)
                     (Exec_where_clauses q)).
    { unfold Exec_where_clauses. destruct (negb (include_unavailable_ q));
        [| exact Hwhere].
      apply Forall_app. split; [exact Hwhere |]. now constructor. }
    destruct (Exec_where_clauses q) as [|c cs]; [reflexivity |].
    rewrite count_app, count_concat_plain; [reflexivity | reflexivity | exact Hall]. }
  assert (Ho : count "%" (order_text q) = O).
  { unfold order_text. destruct (isEmpty (order_by_ q)); [reflexivity |].
    now rewrite count_app, Horder. }
  assert (Hl : count "%" (limit_text q) = O).
  { unfold limit_text. destruct (limit_ q =? -1); [reflexivity |].
    now rewrite count_app, count_number. }
  assert (Hpre : Exec_sql_limit q
                 = ("SELECT " ++ column_spec_ q ++ " FROM " ++ songs_table_ q ++ " ")
                   ++ (GetInnerQuery q
                       ++ (where_text q ++ order_text q ++ limit_text q))).
  { unfold Exec_sql_limit, Exec_sql_order, Exec_sql_where,
      where_text, order_text, limit_text.
    change (arg "SELECT %1 FROM %2 %3"
              [column_spec_ q; songs_table_ q; GetInnerQuery q])
      with ("SELECT " ++ column_spec_ q ++ " FROM " ++ songs_table_ q
            ++ " " ++ GetInnerQuery q ++ EmptyString).
    destruct (Exec_where_clauses q) as [|c cs];
      destruct (isEmpty (order_by_ q));
      destruct (limit_ q =? -1); cbn [negb];
      now rewrite ?string_app_assoc, ?string_app_nil_r. }
  assert (Heq : Exec_sql q
                = "SELECT " ++ column_spec_ q ++ " FROM " ++ songs_table_ q ++ " "
                  ++ inner_query_of (duplicates_only_ q) (songs_table_ q)
                  ++ where_text q ++ order_text q ++ limit_text q).
  { unfold Exec_sql, replace. rewrite Hpre.
    rewrite replace_after_plain
      by (rewrite !count_app, Hspec, Htable; reflexivity).
    unfold GetInnerQuery. rewrite replace_inner_query.
    rewrite replace_no_first
      by (rewrite !count_app, Hw, Ho, Hl; reflexivity).
    now rewrite !string_app_assoc. }
  split; [exact Heq |].
  rewrite Heq, !count_app, Hspec, Htable, Hw, Ho, Hl.
  unfold inner_query_of. destruct (duplicates_only_ q); [| reflexivity].
  rewrite !count_app, Htable. reflexivity.
Qed.

Lemma Exec_sql_written_out_witness :
  Exec_sql
    (mkQuery "songs" "ROWID" "album" ["artist = ?"] [QVariant_String (Some "x")]
       false true 5)
  = "SELECT " ++ "ROWID" ++ " FROM " ++ "songs" ++ " "
    ++ inner_query_of true "songs"
    ++ " WHERE artist = ? AND unavailable = 0" ++ " ORDER BY album" ++ " LIMIT 5"
  /\ count "%"
       (Exec_sql
          (mkQuery "songs" "ROWID" "album" ["artist = ?"]
             [QVariant_String (Some "x")] false true 5)) = O.
Proof.
  apply (Exec_sql_written_out
           (mkQuery "songs" "ROWID" "album" ["artist = ?"]
              [QVariant_String (Some "x")] false true 5)).
  - reflexivity.
  - reflexivity.
  - reflexivity.
  - repeat constructor.
Defined.

(** ** Containers and tags *)

(** X26.  A container is matched by a tag only through the tag of its
    grouping key: with a tag map that is not empty, an item that holds no
    valid song, and whose grouping key has no tag or a tag that the map
    does not hold, does not match, whatever its display text. *)
Theorem ItemMatches_container_other_tags (model : CollectionModel)
    (item : CollectionItem) (tags : Tags) (filter : QString) :
  tags <> ∅ ->
  is_valid (metadata item) = false ->
  (let tag := group_by_tag
                (Grouping_at (GetGroupBy model) (container_level item)) in
   tag = EmptyString \/ tags !! tag = None) ->
  ItemMatches model item tags filter = false.
Proof.
  intros Hne Hsong Htag. unfold ItemMatches.
  rewrite bool_decide_eq_false_2 by exact Hne.
  rewrite Hsong. cbn [andb orb].
  assert (Hc : TagMatches_container item
                 (Grouping_at (GetGroupBy model) (container_level item)) tags
               = false).
  { unfold TagMatches_container. cbv zeta in *.
    destruct Htag as [-> | ->]; [reflexivity |].
    destruct (isEmpty (group_by_tag _)); reflexivity. }
  now rewrite Hc, !andb_false_r.
Qed.

Lemma ItemMatches_container_other_tags_witness :
  ItemMatches Sample.model Sample.album_item (<["artist" := "daft"]> ∅)
    EmptyString = false.
Proof.
  apply (ItemMatches_container_other_tags Sample.model Sample.album_item
           (<["artist" := "daft"]> ∅) EmptyString).
  - intros H. apply (f_equal (fun m : Tags => m !! "artist")) in H.
    vm_compute in H. discriminate H.
  - reflexivity.
  - right. reflexivity.
Defined.

(** ** An empty IN list in the statement *)

Lemma prefix_app_foreign (before u : QString) (c0 : ascii) (t : QString) :
  contains_char c0 before = false ->
  String.prefix before (u ++ String c0 t) = String.prefix before u.
Proof.
  intros Hno.
  destruct (String.prefix before u) eqn:Hu.
  - now apply prefix_app.
  - destruct (String.prefix before (u ++ String c0 t)) eqn:Hp; [| reflexivity].
    apply prefix_app_inv in Hp; [congruence | exact Hno].
Qed.

(** An occurrence of [before] does not reach over a character foreign to
    [before]: the replacement works on the two sides of it apart. *)
Lemma replace_from_boundary (b : ascii) (bs after : QString) (c0 : ascii)
    (v u : QString) (skip : nat) :
  contains_char c0 (String b bs) = false ->
  (skip <= String.length u)%nat ->
  replace_from skip (String b bs) after (u ++ String c0 v)
  = replace_from skip (String b bs) after (u ++ String c0 EmptyString)
    ++ replace_from O (String b bs) after v.
Proof.
  intros Hno. revert skip. induction u as [|c u IH]; intros skip Hskip.
  - simpl in Hskip. replace skip with O by lia.
    change (EmptyString ++ String c0 v) with (String c0 v).
    change (EmptyString ++ String c0 EmptyString) with (String c0 EmptyString).
    cbn [replace_from]. rewrite !prefix_cons.
    simpl in Hno. apply orb_false_iff in Hno as [Hb _].
    now rewrite Hb.
  - change (String c u ++ String c0 v) with (String c (u ++ String c0 v)).
    change (String c u ++ String c0 EmptyString)
      with (String c (u ++ String c0 EmptyString)).
    simpl in Hskip. destruct skip as [|k].
    + cbn [replace_from].
      change (String c (u ++ String c0 v)) with (String c u ++ String c0 v).
      change (String c (u ++ String c0 EmptyString))
        with (String c u ++ String c0 EmptyString).
      rewrite !prefix_app_foreign by exact Hno.
      destruct (String.prefix (String b bs) (String c u)) eqn:Hp.
      * pose proof (prefix_length _ _ Hp) as Hlen. simpl in Hlen.
        rewrite IH by (simpl; lia). now rewrite string_app_assoc.
      * now rewrite IH by lia.
    + cbn [replace_from]. apply IH. lia.
Qed.

Lemma replace_boundary (b : ascii) (bs after u : QString) (c0 : ascii)
    (v : QString) :
  contains_char c0 (String b bs) = false ->
  replace (String b bs) after ((u ++ String c0 EmptyString) ++ v)
  = replace (String b bs) after (u ++ String c0 EmptyString)
    ++ replace (String b bs) after v.
Proof.
  intros Hno. unfold replace. rewrite string_app_assoc.
  change (String c0 EmptyString ++ v) with (String c0 v).
  apply replace_from_boundary; [exact Hno | lia].
Qed.

Lemma concat_contains_after_space (x : QString) (l : list QString) :
  In x l ->
  exists pre post,
    String.concat " AND " l = pre ++ x ++ post
    /\ (pre = EmptyString \/ exists pre', pre = pre' ++ " ").
Proof.
  induction l as [|a l IH]; intros Hin; [destruct Hin |].
  destruct l as [|b l].
  - destruct Hin as [-> | []].
    exists EmptyString, EmptyString. split; [| now left].
    simpl. now rewrite string_app_nil_r.
  - change (String.concat " AND " (a :: b :: l))
      with (a ++ " AND " ++ String.concat " AND " (b :: l)).
    destruct Hin as [-> | Hin].
    + exists EmptyString, (" AND " ++ String.concat " AND " (b :: l)).
      split; [reflexivity | now left].
    + destruct (IH Hin) as (pre & post & -> & Hpre).
      exists (a ++ " AND " ++ pre), post. split.
      * now rewrite !string_app_assoc.
      * right. destruct Hpre as [-> | (pre' & ->)].
        -- exists (a ++ " AND"). now rewrite !string_app_assoc.
        -- exists (a ++ " AND " ++ pre'). now rewrite !string_app_assoc.
Qed.

(** A clause of [Exec] stands in the text of the statement after a
    space. *)
Lemma Exec_sql_limit_clause (q : CollectionQuery) (clause : QString) :
  In clause (Exec_where_clauses q) ->
  exists pre post, Exec_sql_limit q = (pre ++ " ") ++ clause ++ post.
Proof.
  intros Hin.
  assert (Hw : exists pre post, Exec_sql_where q = (pre ++ " ") ++ clause ++ post).
  { unfold Exec_sql_where. set (sql := arg _ _).
    destruct (concat_contains_after_space clause _ Hin) as (pre & post & Hc & Hpre).
    destruct (Exec_where_clauses q) as [|c cs] eqn:Hcs; [destruct Hin |].
    rewrite Hc. destruct Hpre as [-> | (pre' & ->)].
    - exists (sql ++ " WHERE"), post. now rewrite !string_app_assoc.
    - exists (sql ++ " WHERE " ++ pre'), post. now rewrite !string_app_assoc. }
  destruct Hw as (pre & post & Hw).
  assert (Ho : exists post', Exec_sql_order q = (pre ++ " ") ++ clause ++ post').
  { unfold Exec_sql_order. rewrite Hw.
    destruct (negb (isEmpty (order_by_ q))); [| now exists post].
    exists (post ++ " ORDER BY " ++ order_by_ q).
    now rewrite !string_app_assoc. }
  destruct Ho as (post' & Ho).
  unfold Exec_sql_limit. rewrite Ho.
  destruct (negb (limit_ q =? -1)); [| now exists pre, post'].
  exists pre, (post' ++ " LIMIT " ++ number (limit_ q)).
  now rewrite !string_app_assoc.
Qed.

(** A clause that ends with [)] stands in the statement that [Exec]
    prepares with the name of the table in the place of [%songs_table]. *)
Lemma Exec_sql_clause (q : CollectionQuery) (clause : QString) :
  In (clause ++ ")") (Exec_where_clauses q) ->
  exists pre post,
    Exec_sql q
    = pre ++ replace "%songs_table" (songs_table_ q) (clause ++ ")") ++ post.
Proof.
  intros Hin.
  destruct (Exec_sql_limit_clause q _ Hin) as (pre & post & Heq).
  unfold Exec_sql. rewrite Heq.
  rewrite replace_boundary by reflexivity.
  rewrite replace_boundary by reflexivity.
  eexists; eexists; reflexivity.
Qed.

(** C10, as the code has it.  With the operator IN and a value whose
    string list is empty, [AddWhere] appends the clause [column IN ()],
    which holds no [?] of its own, and binds no value.  [Exec] hands to
    the preparation a statement in which the clause stands with the name
    of the table in the place of every [%songs_table] of it, and so as it
    is written when the column holds no [%]. *)
Theorem AddWhere_in_empty_list (float_toString : Float32.float -> QString)
    (column : QString) (value : QVariant) (op : QString) (q : CollectionQuery)
    (db : QSqlQuery) :
  equal_ci op "IN" = true ->
  toStringList value = [] ->
  let q' := AddWhere float_toString column value op q in
  q' = appended [column ++ " IN ()"] [] q
  /\ count "?" (column ++ " IN ()") = count "?" column
  /\ bound_values_ q' = bound_values_ q
  /\ (exists pre post,
        Exec_sql q'
        = pre ++ replace "%songs_table" (songs_table_ q) (column ++ " IN ()")
          ++ post)
  /\ (count "%" column = O ->
      exists pre post, Exec_sql q' = pre ++ (column ++ " IN ()") ++ post)
  /\ Exec db q'
     = (if prepare db (Exec_sql q')
        then exec db (Exec_sql q') (bound_values_ q) else false).
Proof.
  intros Hop Hempty q'.
  assert (Heq : q' = appended [column ++ " IN ()"] [] q).
  { subst q'. rewrite AddWhere_in by exact Hop. now rewrite Hempty. }
  assert (Hbound : bound_values_ q' = bound_values_ q).
  { rewrite Heq. unfold appended. simpl. apply app_nil_r. }
  assert (Hsql : exists pre post,
             Exec_sql q'
             = pre ++ replace "%songs_table" (songs_table_ q) (column ++ " IN ()")
               ++ post).
  { change (column ++ " IN ()") with (column ++ " IN (" ++ ")").
    rewrite <- string_app_assoc.
    replace (songs_table_ q) with (songs_table_ q') by now rewrite Heq.
    apply Exec_sql_clause.
    rewrite string_app_assoc. change (" IN (" ++ ")") with " IN ()".
    rewrite Heq. unfold Exec_where_clauses, appended. simpl.
    destruct (include_unavailable_ q); simpl; rewrite !in_app_iff; simpl; auto. }
  split; [exact Heq | split; [| split; [exact Hbound | split; [exact Hsql | split]]]].
  - rewrite count_app. simpl. apply Nat.add_0_r.
  - intros Hcol. destruct Hsql as (pre & post & Hsql).
    exists pre, post. rewrite Hsql. unfold replace.
    rewrite replace_no_first; [reflexivity |].
    rewrite count_app, Hcol. reflexivity.
  - unfold Exec. cbv zeta. rewrite Hbound.
    now destruct (prepare db (Exec_sql q')).
Qed.

Lemma AddWhere_in_empty_list_witness :
  let q' := AddWhere Sample.float_toString "track" (QVariant_StringList []) "in"
              Sample.fresh_query in
  q' = appended ["track IN ()"] [] Sample.fresh_query
  /\ count "?" "track IN ()" = count "?" "track"
  /\ bound_values_ q' = bound_values_ Sample.fresh_query
  /\ (exists pre post,
        Exec_sql q'
        = pre ++ replace "%songs_table" "songs" "track IN ()" ++ post)
  /\ (count "%" "track" = O ->
      exists pre post, Exec_sql q' = pre ++ "track IN ()" ++ post)
  /\ Exec (mkSql (fun _ => true) (fun _ _ => true)) q'
     = (if prepare (mkSql (fun _ => true) (fun _ _ => true)) (Exec_sql q')
        then exec (mkSql (fun _ => true) (fun _ _ => true)) (Exec_sql q')
               (bound_values_ Sample.fresh_query)
        else false).
Proof.
  apply (AddWhere_in_empty_list Sample.float_toString "track"
           (QVariant_StringList []) "in" Sample.fresh_query
           (mkSql (fun _ => true) (fun _ _ => true))).
  - reflexivity.
  - reflexivity.
Defined.

(** C10, as the claim has it, fails for a column that names the table by
    [%songs_table]: the clause is appended as [%songs_table.track IN ()],
    and the statement that is prepared holds [songs.track IN ()] and not
    the clause as it is written. *)
Lemma AddWhere_in_empty_list_table_token :
  let q' := AddWhere Sample.float_toString "%songs_table.track"
              (QVariant_StringList []) "IN"
              (CollectionQuery_new 1700000000 "songs" Sample.no_options) in
  where_clauses_ q' = ["%songs_table.track IN ()"]
  /\ Exec_sql q'
     = "SELECT  FROM songs  WHERE songs.track IN () AND unavailable = 0"
  /\ contains "%songs_table.track IN ()" (Exec_sql q') = false.
Proof. repeat split. Qed.
